(** * Symbolic helpers of the vendored computer-algebra library

    A shallow embedding of

    - [sympy/integrals/trigonometry.py]: [_pat_sincos], [trigintegrate],
      [_sin_pow_integrate], [_cos_pow_integrate];
    - [sympy/physics/quantum/qapply.py]: [qapply], [qapply_Mul].

    Both files walk an expression tree owned by the surrounding library.
    The tree is an inductive type here; the library routines the two files
    call but do not define (automatic evaluation in class constructors,
    [expand], [doit], [rewrite], [match], [subs], [integrate],
    [_apply_operator], [is_commutative]) are the fields of a record
    [Library], over which every definition is parametric. *)

From Stdlib Require Import ZArith QArith List Lia Bool String Field.
From stdpp Require Import base option list strings gmap.

Set Warnings "-register-all".
Local Open Scope Z_scope.

(** ** Expression trees *)

(** The [properties] a [Wild] is created with.  The only one the code uses
    is [lambda n: isinstance(n, Integer)]. *)
Inductive WildProperty : Type :=
| IsIntegerInstance.

Inductive Expr : Type :=
(* core *)
| Integer (z : Z)
| Rational (p q : Z)
| Symbol (name : string)
| Dummy (name : string)
| Wild (name : string) (exclude : list Expr) (properties : list WildProperty)
| BooleanTrue
| Add (args : list Expr)
| Mul (args : list Expr)
| Pow (base exp : Expr)
| sin (arg : Expr)
| cos (arg : Expr)
| Function (name : string) (args : list Expr)
| Equality (lhs rhs : Expr)
| Piecewise (pieces : list (Expr * Expr))
(* sympy.physics.quantum *)
| Ket (label : string)
| Bra (label : string)
| Operator (label : string)
| OuterProduct (ket bra : Expr)
| InnerProduct (bra ket : Expr)
| Commutator (A B : Expr)
| AntiCommutator (A B : Expr)
| Dagger (arg : Expr)
| TensorProduct (args : list Expr)
| Density (args : list (Expr * Expr))
| Wavefunction (args : list Expr).

Definition WildProperty_eq_dec (a b : WildProperty) : {a = b} + {a <> b}.
Proof. decide equality. Defined.

Definition pair_eq_dec {A B : Type}
    (da : forall a a' : A, {a = a'} + {a <> a'})
    (db : forall b b' : B, {b = b'} + {b <> b'})
    (p p' : A * B) : {p = p'} + {p <> p'}.
Proof. decide equality. Defined.

Fixpoint Expr_eq_dec (a b : Expr) {struct a} : {a = b} + {a <> b}.
Proof.
  decide equality;
    try apply Z.eq_dec; try apply string_dec;
    try apply (List.list_eq_dec Expr_eq_dec);
    try apply (List.list_eq_dec WildProperty_eq_dec);
    try apply (List.list_eq_dec (pair_eq_dec Expr_eq_dec Expr_eq_dec)).
Defined.

#[global] Instance Expr_eq_decision : EqDecision Expr := Expr_eq_dec.

(** Python's [a == b] on expressions: structural equality. *)
Definition eqb (a b : Expr) : bool := bool_decide (a = b).

(** ** Outcomes of a call *)

(** The exceptions the modelled code can meet. *)
Inductive exn : Type :=
| NotImplementedError
| AttributeError
| TypeError
| IndexError
| UnboundLocalError.

(** A call returns a value, raises, or exhausts the recursion budget
    ([Unfinished] stands for a recursion that has not finished within the
    given depth). *)
Inductive res (A : Type) : Type :=
| Val (a : A)
| Exc (e : exn)
| Unfinished.
Arguments Val {A} a.
Arguments Exc {A} e.
Arguments Unfinished {A}.

#[global] Instance res_ret : MRet res := fun _ a => Val a.
#[global] Instance res_bind : MBind res := fun _ _ k m =>
  match m with
  | Val a => k a
  | Exc e => Exc e
  | Unfinished => Unfinished
  end.

(** [o1] is at most [o2]: if the run behind [o1] finished, the run behind
    [o2] finished in the same way. *)
Definition res_le {A} (o1 o2 : res A) : Prop := o1 <> Unfinished -> o2 = o1.

(** Keyword arguments [**options]: a dict from names to truth values. *)
Abbreviation Options := (gmap string bool).

(** [options.get(key, dflt)] *)
Definition options_get (options : Options) (key : string) (dflt : bool) : bool :=
  default dflt (options !! key).

(** ** The pattern of [_pat_sincos] and the result of [match] *)

(** The tuple [(pat, a, n, m)]. *)
Record Pattern : Type := mkPattern {
  pat : Expr;
  wild_a : Expr;
  wild_n : Expr;
  wild_m : Expr
}.

(** The dict [M] returned by a successful [f.match(pat)]: [M[a]], and
    [M[n]], [M[m]], which are [Integer]s by the properties of the two
    wilds. *)
Record Match : Type := mkMatch {
  M_a : Expr;
  M_n : Z;
  M_m : Z
}.

(** ** The surrounding library *)

Record Library : Type := mkLibrary {
  (** automatic evaluation performed by a class constructor on the node it
      is asked to build: [Mul(a, b)] is [canon (Mul [a; b])] *)
  canon : Expr -> Expr;
  (** [e.expand(commutator=True, tensorproduct=True)] *)
  expand : Expr -> Expr;
  (** [e.expand(tensorproduct=True)] *)
  expand_tensorproduct : Expr -> Expr;
  (** [e.doit()] *)
  doit : Expr -> Expr;
  (** [sympify(e).is_commutative], as a truth value *)
  is_commutative : Expr -> bool;
  (** [lhs._apply_operator(rhs, **options)]; the result may be [None] *)
  _apply_operator : Expr -> Expr -> Options -> res (option Expr);
  (** [f.rewrite('sincos')] *)
  rewrite_sincos : Expr -> Expr;
  (** [f.match(pat)] for the pattern tuple of [_pat_sincos] *)
  match_ : Expr -> Pattern -> option Match;
  (** [integrate(f, x)] *)
  integrate : Expr -> Expr -> Expr;
  (** [e.subs(old, new)] *)
  subs : Expr -> Expr -> Expr -> Expr
}.

(** ** Python operators on expressions *)

Section Operators.
Context (L : Library).

(** [a + b] *)
Definition add (a b : Expr) : Expr := canon L (Add [a; b]).
(** [a * b] *)
Definition mul (a b : Expr) : Expr := canon L (Mul [a; b]).
(** [a ** b] *)
Definition pow (a b : Expr) : Expr := canon L (Pow a b).
(** [-a] *)
Definition neg (a : Expr) : Expr := canon L (Mul [Integer (-1); a]).
(** [a - b] *)
Definition sub (a b : Expr) : Expr := canon L (Add [a; neg b]).
(** [a / b] *)
Definition div (a b : Expr) : Expr := canon L (Mul [a; pow b (Integer (-1))]).
(** [Rational(p, q)] *)
Definition rational (p q : Z) : Expr := canon L (Rational p q).
(** [sin(a)], [cos(a)], [binomial(n, k)] *)
Definition sin_ (a : Expr) : Expr := canon L (sin a).
Definition cos_ (a : Expr) : Expr := canon L (cos a).
Definition binomial (n k : Z) : Expr :=
  canon L (Function "binomial" [Integer n; Integer k]).
(** [Eq(a, b)] and [Piecewise(...)] *)
Definition Eq_ (a b : Expr) : Expr := canon L (Equality a b).
Definition Piecewise_ (pieces : list (Expr * Expr)) : Expr :=
  canon L (Piecewise pieces).
End Operators.

(** * sympy/integrals/trigonometry.py *)

Module Trigonometry.

(** ** The memo table of [@cacheit] *)

(** [_pat_sincos] is decorated with [@cacheit]: its results are kept in a
    table shared by all calls.  The table is threaded through the three
    functions of the file as explicit state. *)
Definition Cache : Type := list (Expr * Pattern).

Fixpoint cache_lookup (x : Expr) (c : Cache) : option Pattern :=
  match c with
  | [] => None
  | (k, p) :: c' => if eqb k x then Some p else cache_lookup x c'
  end.

(** A computation that reads and updates the table.  The table survives an
    exception. *)
Definition Cached (A : Type) : Type := Cache -> res A * Cache.

Definition ret {A} (a : A) : Cached A := fun c => (Val a, c).
Definition raise {A} (e : exn) : Cached A := fun c => (Exc e, c).
Definition unfinished {A} : Cached A := fun c => (Unfinished, c).
Definition bind {A B} (m : Cached A) (k : A -> Cached B) : Cached B := fun c =>
  match m c with
  | (Val a, c') => k a c'
  | (Exc e, c') => (Exc e, c')
  | (Unfinished, c') => (Unfinished, c')
  end.

Notation "x <- m ;; k" := (bind m (fun x => k))
  (at level 100, m at next level, right associativity).

(** [for i in l: acc = body(acc, i)] *)
Fixpoint for_each {A B} (l : list B) (body : A -> B -> Cached A) (acc : A) : Cached A :=
  match l with
  | [] => ret acc
  | i :: l' => acc' <- body acc i ;; for_each l' body acc'
  end.

Section Trig.
Context (L : Library).

(** The body of [_pat_sincos]. *)
Definition _pat_sincos_body (x : Expr) : Pattern :=
  let a := Wild "a" [x] [] in
  let n := Wild "n" [x] [IsIntegerInstance] in
  let m := Wild "m" [x] [IsIntegerInstance] in
  let pat := mul L (pow L (sin_ L (mul L a x)) n)
                   (pow L (cos_ L (mul L a x)) m) in
  mkPattern pat a n m.

(** [_pat_sincos] behind [@cacheit]. *)
Definition _pat_sincos (x : Expr) : Cached Pattern := fun c =>
  match cache_lookup x c with
  | Some p => (Val p, c)
  | None => let p := _pat_sincos_body x in (Val p, (x, p) :: c)
  end.

(** [_u = Dummy('u')] *)
Definition _u : Expr := Dummy "u".

(** [c * r] where [r] may be [None]: multiplying by [None] raises
    [TypeError]. *)
Definition mul_result (c : Expr) (r : option Expr) : Cached Expr :=
  match r with
  | Some e => ret (mul L c e)
  | None => raise TypeError
  end.

(** [res.subs(old, new)] where [res] may be [None]: [None] has no
    attribute [subs]. *)
Definition subs_result (r : option Expr) (old new : Expr) : Cached Expr :=
  match r with
  | Some e => ret (subs L e old new)
  | None => raise AttributeError
  end.

Fixpoint trigintegrate (fuel : nat) (f x : Expr) (conds : string)
    {struct fuel} : Cached (option Expr) :=
  match fuel with
  | O => unfinished
  | S fuel =>
    p <- _pat_sincos x ;;
    let f := rewrite_sincos L f in
    match match_ L f p with
    | None => ret None
    | Some M =>
      let n := M_n M in
      let m := M_m M in
      if (n =? 0) && (m =? 0) then ret (Some x) else
      let zz := if n =? 0 then x else Integer 0 in
      let a := M_a M in
      if Z.odd n || Z.odd m then
        let u := _u in
        let n_ := Z.odd n in
        let m_ := Z.odd m in
        (* take smallest n or m -- to choose simplest substitution *)
        let '(n_, m_) :=
          if n_ && m_ then (n_ && (n <? m), m_ && negb (n <? m))
          else (n_, m_) in
        ffuu <-
          (if n_ then
             ret (mul L (neg L (pow L (sub L (Integer 1) (pow L u (Integer 2)))
                                       (rational L (n - 1) 2)))
                        (pow L u (Integer m)),
                  cos_ L (mul L a x))
           else if m_ then
             ret (mul L (pow L u (Integer n))
                        (pow L (sub L (Integer 1) (pow L u (Integer 2)))
                               (rational L (m - 1) 2)),
                  sin_ L (mul L a x))
           else raise UnboundLocalError) ;;
        let '(ff, uu) := ffuu in
        let fi := integrate L ff u in
        let fx := subs L fi u uu in
        if String.eqb conds "piecewise" then
          ret (Some (Piecewise_ L [(zz, Eq_ L a (Integer 0));
                                   (div L fx a, BooleanTrue)]))
        else ret (Some (div L fx a))
      else
        (* n & m are both even *)
        let n_ := Z.abs n >? Z.abs m in
        let m_ := Z.abs m >? Z.abs n in
        res <-
          (if n_ then
             if m >? 0 then
               acc <- for_each (seqZ 0 (m / 2 + 1))
                 (fun res i =>
                    r <- _sin_pow_integrate fuel (n + 2 * i) x ;;
                    t <- mul_result
                           (mul L (Integer ((-1) ^ i)) (binomial L (m / 2) i)) r ;;
                    ret (add L res t))
                 (Integer 0) ;;
               ret (Some acc)
             else if m =? 0 then
               _sin_pow_integrate fuel n x
             else
               r <- trigintegrate fuel
                      (mul L (pow L (cos_ L x) (Integer (m + 2)))
                             (pow L (sin_ L x) (Integer (n - 2))))
                      x "piecewise" ;;
               t <- mul_result (rational L (n - 1) (m + 1)) r ;;
               ret (Some (add L (mul L (mul L (rational L (-1) (m + 1))
                                              (pow L (cos_ L x) (Integer (m + 1))))
                                       (pow L (sin_ L x) (Integer (n - 1))))
                                t))
           else if m_ then
             if n >? 0 then
               acc <- for_each (seqZ 0 (n / 2 + 1))
                 (fun res i =>
                    r <- _cos_pow_integrate fuel (m + 2 * i) x ;;
                    t <- mul_result
                           (mul L (Integer ((-1) ^ i)) (binomial L (n / 2) i)) r ;;
                    ret (add L res t))
                 (Integer 0) ;;
               ret (Some acc)
             else if n =? 0 then
               _cos_pow_integrate fuel m x
             else
               r <- trigintegrate fuel
                      (mul L (pow L (cos_ L x) (Integer (m - 2)))
                             (pow L (sin_ L x) (Integer (n + 2))))
                      x "piecewise" ;;
               t <- mul_result (rational L (m - 1) (n + 1)) r ;;
               ret (Some (add L (mul L (mul L (rational L 1 (n + 1))
                                              (pow L (cos_ L x) (Integer (m - 1))))
                                       (pow L (sin_ L x) (Integer (n + 1))))
                                t))
           else
             if m =? n then
               ret (Some (integrate L
                            (pow L (mul L (rational L 1 2)
                                          (sin_ L (mul L (Integer 2) x)))
                                   (Integer m))
                            x))
             else if m =? - n then
               if n <? 0 then
                 ret (Some (add L
                   (mul L (mul L (rational L 1 (n + 1))
                                 (pow L (cos_ L x) (Integer (m - 1))))
                          (pow L (sin_ L x) (Integer (n + 1))))
                   (mul L (rational L (m - 1) (n + 1))
                          (integrate L
                             (mul L (pow L (cos_ L x) (Integer (m - 2)))
                                    (pow L (sin_ L x) (Integer (n + 2))))
                             x))))
               else
                 ret (Some (add L
                   (mul L (mul L (rational L (-1) (m + 1))
                                 (pow L (cos_ L x) (Integer (m + 1))))
                          (pow L (sin_ L x) (Integer (n - 1))))
                   (mul L (rational L (n - 1) (m + 1))
                          (integrate L
                             (mul L (pow L (cos_ L x) (Integer (m + 2)))
                                    (pow L (sin_ L x) (Integer (n - 2))))
                             x))))
             else ret (Some (Integer 0))) ;;
        r <- subs_result res x (mul L a x) ;;
        if String.eqb conds "piecewise" then
          ret (Some (Piecewise_ L [(zz, Eq_ L a (Integer 0));
                                   (div L r a, BooleanTrue)]))
        else ret (Some (div L r a))
    end
  end

with _sin_pow_integrate (fuel : nat) (n : Z) (x : Expr)
    {struct fuel} : Cached (option Expr) :=
  match fuel with
  | O => unfinished
  | S fuel =>
    if n >? 0 then
      if n =? 1 then
        ret (Some (neg L (cos_ L x)))
      else
        r <- _sin_pow_integrate fuel (n - 2) x ;;
        t <- mul_result (rational L (n - 1) n) r ;;
        ret (Some (add L (mul L (mul L (rational L (-1) n) (cos_ L x))
                                (pow L (sin_ L x) (Integer (n - 1))))
                         t))
    else if n <? 0 then
      if n =? -1 then
        trigintegrate fuel (div L (Integer 1) (sin_ L x)) x "piecewise"
      else
        r <- _sin_pow_integrate fuel (n + 2) x ;;
        t <- mul_result (rational L (n + 2) (n + 1)) r ;;
        ret (Some (add L (mul L (mul L (rational L 1 (n + 1)) (cos_ L x))
                                (pow L (sin_ L x) (Integer (n + 1))))
                         t))
    else
      ret (Some x)
  end

with _cos_pow_integrate (fuel : nat) (n : Z) (x : Expr)
    {struct fuel} : Cached (option Expr) :=
  match fuel with
  | O => unfinished
  | S fuel =>
    if n >? 0 then
      if n =? 1 then
        ret (Some (sin_ L x))
      else
        r <- _cos_pow_integrate fuel (n - 2) x ;;
        t <- mul_result (rational L (n - 1) n) r ;;
        ret (Some (add L (mul L (mul L (rational L 1 n) (sin_ L x))
                                (pow L (cos_ L x) (Integer (n - 1))))
                         t))
    else if n <? 0 then
      if n =? -1 then
        trigintegrate fuel (div L (Integer 1) (cos_ L x)) x "piecewise"
      else
        r <- _cos_pow_integrate fuel (n + 2) x ;;
        t <- mul_result (rational L (n + 2) (n + 1)) r ;;
        ret (Some (add L (mul L (mul L (rational L (-1) (n + 1)) (sin_ L x))
                                (pow L (cos_ L x) (Integer (n + 1))))
                         t))
    else
      ret (Some x)
  end.

End Trig.

(** ** Notions used to state the properties of the file *)

Section Notions.
Context (L : Library).

(** Every entry of the memo table was stored by [_pat_sincos]. *)
Definition coherent (c : Cache) : Prop :=
  Forall (fun kp => snd kp = _pat_sincos_body L (fst kp)) c.

(** [m1] and [m2] keep the table coherent, and whenever [m1] finishes,
    [m2] finishes in the same way, from any two coherent tables. *)
Definition agree {A} (m1 m2 : Cached A) : Prop :=
  forall c1 c2, coherent c1 -> coherent c2 ->
    coherent (snd (m1 c1)) /\ coherent (snd (m2 c2))
    /\ res_le (fst (m1 c1)) (fst (m2 c2)).

(** The call [m] returns [v], whatever the memo table, as soon as the
    recursion budget reaches some depth; it leaves the table as it was. *)
Definition returns {A} (m : nat -> Cached A) (v : A) : Prop :=
  exists k, forall fuel c, (k <= fuel)%nat -> m fuel c = (Val v, c).

(** [trigintegrate(f, x)] settles [f] without calling itself or the two
    power integrators: [f] does not match, or matches with both
    exponents zero or with an odd exponent. *)
Definition settles_directly (f x : Expr) : bool :=
  match match_ L (rewrite_sincos L f) (_pat_sincos_body L x) with
  | None => true
  | Some M =>
      ((M_n M =? 0) && (M_m M =? 0)) || Z.odd (M_n M) || Z.odd (M_m M)
  end.

(** The right-hand side of the sine reduction formula as the
    specification writes it,
    [-cos(x)*sin(x)**(n-1)/n + ((n-1)/n)*r]. *)
Definition sin_reduction_formula (n : Z) (x r : Expr) : Expr :=
  add L (div L (mul L (neg L (cos_ L x)) (pow L (sin_ L x) (Integer (n - 1))))
               (Integer n))
        (mul L (div L (Integer (n - 1)) (Integer n)) r).

(** The right-hand side of the cosine reduction formula as the
    specification writes it,
    [(1/n)*sin(x)*cos(x)**(n-1) + ((n-1)/n)*r]. *)
Definition cos_reduction_formula (n : Z) (x r : Expr) : Expr :=
  add L (mul L (mul L (div L (Integer 1) (Integer n)) (sin_ L x))
               (pow L (cos_ L x) (Integer (n - 1))))
        (mul L (div L (Integer (n - 1)) (Integer n)) r).
End Notions.

(** The branch a [Piecewise] takes: the value of the first piece whose
    condition holds. *)
Fixpoint piecewise_select (holds : Expr -> bool) (pieces : list (Expr * Expr))
    : option Expr :=
  match pieces with
  | [] => None
  | (e, cond) :: pieces' =>
      if holds cond then Some e else piecewise_select holds pieces'
  end.

End Trigonometry.

(** * sympy/physics/quantum/qapply.py *)

Module QApply.

(** [[body(x) for x in l]], stopping at the first call that does not
    return. *)
Fixpoint list_comprehension {A B} (body : A -> res B) (l : list A) : res (list B) :=
  match l with
  | [] => Val []
  | x :: l' => y ← body x; ys ← list_comprehension body l'; Val (y :: ys)
  end.

(** [for x in l: acc = body(acc, x)] *)
Fixpoint for_each {A B} (l : list B) (body : A -> B -> res A) (acc : A) : res A :=
  match l with
  | [] => Val acc
  | x :: l' => acc' ← body acc x; for_each l' body acc'
  end.

(** [l.pop()]: the last element and the list without it. *)
Definition pop {A} (l : list A) : option (A * list A) :=
  match rev l with
  | [] => None
  | x :: l' => Some (x, rev l')
  end.

(** [isinstance(e, C)] for the classes the code tests.  [Ket] and [Bra]
    derive from [State]; [OuterProduct] and [Density] derive from
    [Operator]. *)
Definition is_KetBase (e : Expr) : bool :=
  match e with Ket _ => true | _ => false end.
Definition is_BraBase (e : Expr) : bool :=
  match e with Bra _ => true | _ => false end.
Definition is_State (e : Expr) : bool :=
  match e with Ket _ | Bra _ => true | _ => false end.
Definition is_Operator (e : Expr) : bool :=
  match e with Operator _ | OuterProduct _ _ | Density _ => true | _ => false end.
Definition is_Wavefunction (e : Expr) : bool :=
  match e with Wavefunction _ => true | _ => false end.
Definition is_InnerProduct (e : Expr) : bool :=
  match e with InnerProduct _ _ => true | _ => false end.

Section QApply.
Context (L : Library).

(** [e.func] applied to the list [args], in a branch where [e] is a
    [Mul]: the constructor [Mul] on those arguments. *)
Definition Mul_ (args : list Expr) : Expr := canon L (Mul args).

(** The condition of the tensor-product branch of [qapply_Mul]. *)
Definition tensor_applicable (lhs rhs : Expr) : bool :=
  match lhs, rhs with
  | TensorProduct largs, TensorProduct rargs =>
      forallb (fun arg => is_Operator arg || eqb arg (Integer 1)) largs
      && forallb (fun arg => is_State arg || eqb arg (Integer 1)) rargs
      && (length largs =? length rargs)%nat
  | _, _ => false
  end.

(** [lhs.args] of a [TensorProduct]. *)
Definition tensor_args (e : Expr) : list Expr :=
  match e with TensorProduct args => args | _ => [] end.

(** The [try] statement of [qapply_Mul]: the value left in [result]. *)
Definition apply_or_inner_product (lhs rhs : Expr) (options : Options)
    : res (option Expr) :=
  let ip_doit := options_get options "ip_doit" true in
  match _apply_operator L lhs rhs options with
  | Exc NotImplementedError | Exc AttributeError =>
      match _apply_operator L rhs lhs options with
      | Exc NotImplementedError | Exc AttributeError =>
          if is_BraBase lhs && is_KetBase rhs then
            let result := canon L (InnerProduct lhs rhs) in
            Val (Some (if ip_doit then doit L result else result))
          else
            Val None
      | result => result
      end
  | result => result
  end.

Fixpoint qapply (fuel : nat) (e : Expr) (options : Options)
    {struct fuel} : res Expr :=
  match fuel with
  | O => Unfinished
  | S fuel =>
    let dagger := options_get options "dagger" false in
    if eqb e (Integer 0) then Val (Integer 0) else
    let e := expand L e in
    match e with
    (* If we just have a raw ket, return it. *)
    | Ket _ => Val e
    (* We have an Add(a, b, c, ...) and compute Add(qapply(a), qapply(b), ...) *)
    | Add args =>
        for_each args
          (fun result arg => r ← qapply fuel arg options; Val (add L result r))
          (Integer 0)
    (* For a Density operator call qapply on its state *)
    | Density args =>
        new_args ← list_comprehension
          (fun sp : Expr * Expr =>
             s ← qapply fuel (fst sp) options; Val (s, snd sp))
          args;
        Val (canon L (Density new_args))
    (* For a raw TensorProduct, call qapply on its args. *)
    | TensorProduct args =>
        ts ← list_comprehension (fun t => qapply fuel t options) args;
        Val (canon L (TensorProduct ts))
    (* For a Pow, call qapply on its base. *)
    | Pow base exp =>
        b ← qapply fuel base options; Val (pow L b exp)
    (* We have a Mul where there might be actual operators to apply to kets. *)
    | Mul _ =>
        result ← qapply_Mul fuel e options;
        if eqb result e && dagger then
          r ← qapply_Mul fuel (canon L (Dagger e)) options;
          Val (canon L (Dagger r))
        else
          Val result
    | _ => Val e
    end
  end

with qapply_Mul (fuel : nat) (e : Expr) (options : Options)
    {struct fuel} : res Expr :=
  match fuel with
  | O => Unfinished
  | S fuel =>
    match e with
    | Mul e_args =>
      let args := e_args in
      (* If we only have 0 or 1 args, we have nothing to do and return. *)
      if (length args <=? 1)%nat then Val e else
      match pop args with
      | None => Exc IndexError
      | Some (rhs, args) =>
      match pop args with
      | None => Exc IndexError
      | Some (lhs, args) =>
      (* Make sure we have two non-commutative objects before proceeding. *)
      if (is_commutative L rhs && negb (is_Wavefunction rhs))
         || (is_commutative L lhs && negb (is_Wavefunction lhs))
      then Val e else
      (* For a Pow with an integer exponent, apply one of them and reduce
         the exponent by one. *)
      let '(args, lhs) :=
        match lhs with
        | Pow base (Integer k) => (args ++ [pow L base (Integer (k - 1))], base)
        | _ => (args, lhs)
        end in
      (* Pull OuterProduct apart *)
      let '(args, lhs) :=
        match lhs with
        | OuterProduct ket bra => (args ++ [ket], bra)
        | _ => (args, lhs)
        end in
      match lhs with
      (* Call .doit() on Commutator/AntiCommutator. *)
      | Commutator _ _ | AntiCommutator _ _ =>
          let comm := doit L lhs in
          match comm with
          | Add (c0 :: c1 :: _) =>
              qapply fuel
                (add L (Mul_ (args ++ [c0; rhs])) (Mul_ (args ++ [c1; rhs])))
                options
          | Add _ => Exc IndexError
          | _ => qapply fuel (mul L (mul L (Mul_ args) comm) rhs) options
          end
      | _ =>
        (* Apply tensor products of operators to states *)
        if tensor_applicable lhs rhs then
          ts ← list_comprehension
                 (fun lr : Expr * Expr =>
                    qapply fuel (mul L (fst lr) (snd lr)) options)
                 (zip (tensor_args lhs) (tensor_args rhs));
          let result := expand_tensorproduct L (canon L (TensorProduct ts)) in
          r ← qapply_Mul fuel (Mul_ args) options;
          Val (mul L r result)
        else
        (* Now try to actually apply the operator and build an inner product. *)
        result ← apply_or_inner_product lhs rhs options;
        match result with
        | Some result =>
            if eqb result (Integer 0) then Val (Integer 0)
            else if is_InnerProduct result then
              r ← qapply_Mul fuel (Mul_ args) options;
              Val (mul L result r)
            else
              (* result is a scalar times a Mul, Add or TensorProduct *)
              qapply fuel (mul L (Mul_ args) result) options
        | None =>
            if (length args =? 0)%nat then
              (* We had two args to begin with so args=[]. *)
              Val e
            else
              r ← qapply_Mul fuel (Mul_ (args ++ [lhs])) options;
              Val (mul L r rhs)
        end
      end
      end
      end
    | _ => Val e
    end
  end.

End QApply.

(** The call [m] returns [v] when given enough recursion budget. *)
Definition returns {A} (m : nat -> res A) (v : A) : Prop :=
  exists fuel, m fuel = Val v.

(** The outcome is one of the two exceptions that the [try] statement of
    [qapply_Mul] catches. *)
Definition unimplemented {A} (o : res A) : bool :=
  match o with
  | Exc NotImplementedError | Exc AttributeError => true
  | _ => false
  end.

End QApply.

(** * A small instance of the library

    Enough of the library's behaviour to run the two files on concrete
    expressions: constructors collapse empty and one-element sums and
    products and the powers [b**0], [b**1]; [expand], [doit] and
    [rewrite] leave their argument alone; [integrate] and [subs] return
    unevaluated nodes; the matcher recognises products of integer powers
    of [sin(x)] and [cos(x)] (so [a = 1]); every [Operator] applied to a
    [Ket] gives the ket back and no other application is implemented. *)

Module Sample.

Definition canon (e : Expr) : Expr :=
  match e with
  | Add [] => Integer 0
  | Add [a] => a
  | Mul [] => Integer 1
  | Mul [a] => a
  | Pow b (Integer 0) => Integer 1
  | Pow b (Integer 1) => b
  | _ => e
  end.

Fixpoint is_commutative (e : Expr) : bool :=
  match e with
  | Integer _ | Rational _ _ | Symbol _ | Dummy _ | Wild _ _ _ | BooleanTrue
  | sin _ | cos _ | Function _ _ | Equality _ _ | Piecewise _
  | InnerProduct _ _ | Wavefunction _ => true
  | Add args | Mul args => forallb is_commutative args
  | Pow b e' => is_commutative b && is_commutative e'
  | _ => false
  end.

Definition _apply_operator (lhs rhs : Expr) (options : Options)
    : res (option Expr) :=
  match lhs, rhs with
  | Operator _, Ket _ => Val (Some rhs)
  | Operator _, _ | Ket _, _ => Exc NotImplementedError
  | _, _ => Exc AttributeError
  end.

(** The exponents of [sin(x)] and [cos(x)] in one factor. *)
Definition factor_exponents (x f : Expr) : option (Z * Z) :=
  match f with
  | Integer 1 => Some (0, 0)
  | sin y => if eqb y x then Some (1, 0) else None
  | cos y => if eqb y x then Some (0, 1) else None
  | Pow (sin y) (Integer k) => if eqb y x then Some (k, 0) else None
  | Pow (cos y) (Integer k) => if eqb y x then Some (0, k) else None
  | _ => None
  end.

Definition match_ (f : Expr) (p : Pattern) : option Match :=
  match wild_a p with
  | Wild _ [x] _ =>
      let factors := match f with Mul args => args | _ => [f] end in
      nm ← foldr (fun f acc =>
                    nm ← acc; nm' ← factor_exponents x f;
                    Some (fst nm + fst nm', snd nm + snd nm'))
                 (Some (0, 0)) factors;
      Some (mkMatch (Integer 1) (fst nm) (snd nm))
  | _ => None
  end.

Definition library : Library :=
  mkLibrary
    canon
    (fun e => e)                                   (* expand *)
    (fun e => e)                                   (* expand_tensorproduct *)
    (fun e => e)                                   (* doit *)
    is_commutative
    _apply_operator
    (fun f => f)                                   (* rewrite_sincos *)
    match_
    (fun f x => Function "Integral" [f; x])        (* integrate *)
    (fun e old new => Function "Subs" [e; old; new]).

End Sample.

(** ** Denotation of arithmetic expressions

    The value of an expression in the rationals, given the values [rho] of
    its non-arithmetic subterms ([x], [sin(x)], [cos(x)], ...). *)
Fixpoint eval (rho : Expr -> Q) (e : Expr) : Q :=
  match e with
  | Integer z => inject_Z z
  | Rational p q => (inject_Z p / inject_Z q)%Q
  | Add args => fold_right (fun a acc => eval rho a + acc)%Q 0%Q args
  | Mul args => fold_right (fun a acc => eval rho a * acc)%Q 1%Q args
  | Pow b (Integer k) => Qpower (eval rho b) k
  | _ => rho e
  end.

(** The automatic evaluation of the constructors keeps the value. *)
Definition canon_sound (L : Library) (rho : Expr -> Q) : Prop :=
  forall e, (eval rho (canon L e) == eval rho e)%Q.

(** * sympy/assumptions/handlers/sets.py *)

(** The keys of [Q] the handlers ask about. *)
Inductive Predicate : Type :=
| Q_integer | Q_rational | Q_irrational | Q_real | Q_imaginary
| Q_even | Q_odd | Q_positive | Q_negative
| Q_commutative | Q_hermitian | Q_antihermitian.

(** What is asked: [key(arg)], or its negation [~p]. *)
Inductive Proposition : Type :=
| Applied (key : Predicate) (arg : Expr)
| Not (p : Proposition).

(** The routines of the assumptions system and of the expression classes
    that the handlers call but the file does not define.  [ask] and
    [test_closed_group] answer [True], [False] or [None]. *)
Record Oracle : Type := mkOracle {
  (** [ask(proposition, assumptions)] *)
  ask : Proposition -> Expr -> option bool;
  (** [test_closed_group(expr, assumptions, key)] *)
  test_closed_group : Expr -> Expr -> Predicate -> option bool;
  (** [expr.is_number] *)
  is_number : Expr -> bool;
  (** [expr.as_real_imag()] *)
  as_real_imag : Expr -> Expr * Expr;
  (** [e.evalf()] and [e.evalf(n)] *)
  evalf : Expr -> option Z -> Expr;
  (** [e._prec] of an evaluated number *)
  _prec : Expr -> Z;
  (** [bool(e)]: the truth value of an expression *)
  truth : Expr -> bool;
  (** [int(expr.round())]; [None] when it raises [TypeError] *)
  round_int : Expr -> option Z;
  (** [a.equals(b)] *)
  equals : Expr -> Expr -> option bool
}.

(** The truth value of an answer in [if ask(...)]: only [True] counts. *)
Definition truthy (answer : option bool) : bool :=
  match answer with Some true => true | _ => false end.

(** [if ask(key(arg), assumptions)] and [if ask(~Q.commutative(arg),
    assumptions)] as truth values. *)
Definition known (K : Oracle) (assumptions : Expr) (key : Predicate)
    (arg : Expr) : bool :=
  truthy (ask K (Applied key arg) assumptions).
Definition noncommutative (K : Oracle) (assumptions arg : Expr) : bool :=
  truthy (ask K (Not (Applied Q_commutative arg)) assumptions).

(** The number of elements of [l] that satisfy [P]. *)
Fixpoint count_if {A} (P : A -> bool) (l : list A) : nat :=
  match l with
  | [] => 0
  | a :: l' => (if P a then 1 else 0) + count_if P l'
  end.

(** [e.is_Rational] with [e.q]: the denominator of an instance of
    [Rational], of which [Integer] is a subclass. *)
Definition rational_q (e : Expr) : option Z :=
  match e with
  | Integer _ => Some 1
  | Rational _ q => Some q
  | _ => None
  end.

(** [e.args] *)
Definition args_of (e : Expr) : list Expr :=
  match e with
  | Add args | Mul args | Function _ args | TensorProduct args
  | Wavefunction args | Wild _ args _ => args
  | Pow b ex => [b; ex]
  | sin a | cos a | Dagger a => [a]
  | Equality a b | OuterProduct a b | InnerProduct a b | Commutator a b
  | AntiCommutator a b => [a; b]
  | _ => []
  end.

(** [(e.base, e.exp)] of a power. *)
Definition base_exp (e : Expr) : option (Expr * Expr) :=
  match e with Pow b ex => Some (b, ex) | _ => None end.

Module AskIntegerHandler.
Section Handler.
Context (L : Library) (K : Oracle).

Definition _number (expr assumptions : Expr) : bool :=
  match round_int K expr with
  | Some i =>
      if negb (truthy (equals K (sub L expr (Integer i)) (Integer 0)))
      then false   (* raise TypeError, caught below *)
      else true
  | None => false
  end.

Definition Add (expr assumptions : Expr) : option bool :=
  if is_number K expr then Some (_number expr assumptions)
  else test_closed_group K expr assumptions Q_integer.

(** The [for] loop of [Mul] with its [else] clause; [_output] is the
    local variable of that name. *)
Fixpoint Mul_loop (expr assumptions : Expr) (args : list Expr) (_output : bool)
    : option bool :=
  match args with
  | [] => Some _output
  | arg :: args' =>
      if negb (truthy (ask K (Applied Q_integer arg) assumptions)) then
        match rational_q arg with
        | Some q =>
            if q =? 2 then
              ask K (Applied Q_even (mul L (Integer 2) expr)) assumptions
            else if negb (Z.lnot (Z.land q 1) =? 0) then None
            else Mul_loop expr assumptions args' _output
        | None =>
            if truthy (ask K (Applied Q_irrational arg) assumptions) then
              if _output then Mul_loop expr assumptions args' false
              else None
            else None
        end
      else Mul_loop expr assumptions args' _output
  end.

Definition Mul (expr assumptions : Expr) : option bool :=
  if is_number K expr then Some (_number expr assumptions)
  else Mul_loop expr assumptions (args_of expr) true.

Definition Pow := Add.

End Handler.
End AskIntegerHandler.

Module AskIrrationalHandler.
Section Handler.
Context (K : Oracle).

Definition Basic (expr assumptions : Expr) : option bool :=
  let _real := ask K (Applied Q_real expr) assumptions in
  if truthy _real then
    let _rational := ask K (Applied Q_rational expr) assumptions in
    match _rational with
    | None => None
    | Some b => Some (negb b)
    end
  else _real.

End Handler.
End AskIrrationalHandler.

Module AskRealHandler.
Section Handler.
Context (K : Oracle).

Definition _number (expr assumptions : Expr) : option bool :=
  let i := evalf K (snd (as_real_imag K expr)) (Some 2) in
  if negb (_prec K i =? 1) then Some (negb (truth K i))
  else None.

Definition Add (expr assumptions : Expr) : option bool :=
  if is_number K expr then _number expr assumptions
  else test_closed_group K expr assumptions Q_real.

(** The [for] loop of [Mul]: [break] leaves the function without a
    [return], that is with [None]. *)
Fixpoint Mul_loop (assumptions : Expr) (args : list Expr) (result : bool)
    : option bool :=
  match args with
  | [] => Some result
  | arg :: args' =>
      if truthy (ask K (Applied Q_real arg) assumptions) then
        Mul_loop assumptions args' result
      else if truthy (ask K (Applied Q_imaginary arg) assumptions) then
        Mul_loop assumptions args' (xorb result true)
      else None
  end.

Definition Mul (expr assumptions : Expr) : option bool :=
  if is_number K expr then _number expr assumptions
  else Mul_loop assumptions (args_of expr) true.

Definition Pow (expr assumptions : Expr) : res (option bool) :=
  if is_number K expr then Val (_number expr assumptions) else
  match base_exp expr with
  | None => Exc AttributeError
  | Some (base, exp) =>
    if truthy (ask K (Applied Q_imaginary base) assumptions) then
      if truthy (ask K (Applied Q_real exp) assumptions) then
        if truthy (ask K (Applied Q_odd exp) assumptions) then Val (Some false)
        else if truthy (ask K (Applied Q_even exp) assumptions) then Val (Some true)
        else Val None
      else Val None
    else if truthy (ask K (Applied Q_real base) assumptions) then
      if truthy (ask K (Applied Q_real exp) assumptions) then
        if match rational_q exp with
           | Some q => truthy (ask K (Applied Q_even (Integer q)) assumptions)
           | None => false
           end
        then Val (ask K (Applied Q_positive base) assumptions)
        else if truthy (ask K (Applied Q_integer exp) assumptions) then Val (Some true)
        else if truthy (ask K (Applied Q_positive base) assumptions) then Val (Some true)
        else if truthy (ask K (Applied Q_negative base) assumptions) then Val (Some false)
        else Val None
      else Val None
    else Val None
  end.

End Handler.
End AskRealHandler.

Module AskHermitianHandler.
Section Handler.
Context (K : Oracle).

Fixpoint Mul_loop (assumptions : Expr) (args : list Expr)
    (nccount : Z) (result : bool) : option bool :=
  match args with
  | [] => Some result
  | arg :: args' =>
      let step (result : bool) :=
        if truthy (ask K (Not (Applied Q_commutative arg)) assumptions) then
          let nccount := nccount + 1 in
          if nccount >? 1 then None
          else Mul_loop assumptions args' nccount result
        else Mul_loop assumptions args' nccount result in
      if truthy (ask K (Applied Q_antihermitian arg) assumptions) then
        step (xorb result true)
      else if negb (truthy (ask K (Applied Q_hermitian arg) assumptions)) then
        None
      else step result
  end.

Definition Mul (expr assumptions : Expr) : option bool :=
  if is_number K expr then AskRealHandler._number K expr assumptions
  else Mul_loop assumptions (args_of expr) 0 true.

End Handler.
End AskHermitianHandler.

Module AskImaginaryHandler.
Section Handler.
Context (K : Oracle).

Definition _number (expr assumptions : Expr) : bool :=
  negb (truth K (evalf K (fst (as_real_imag K expr)) None)).

(** The [for] loop of [Add] with its [else] clause; [len_args] is
    [len(expr.args)]. *)
Fixpoint Add_loop (assumptions : Expr) (len_args : Z) (args : list Expr)
    (reals : Z) : option bool :=
  match args with
  | [] =>
      if reals =? 0 then Some true
      else if (reals =? 1) || (len_args =? reals) then Some false
      else None
  | arg :: args' =>
      if truthy (ask K (Applied Q_imaginary arg) assumptions) then
        Add_loop assumptions len_args args' reals
      else if truthy (ask K (Applied Q_real arg) assumptions) then
        Add_loop assumptions len_args args' (reals + 1)
      else None
  end.

Definition Add (expr assumptions : Expr) : option bool :=
  if is_number K expr then Some (_number expr assumptions)
  else Add_loop assumptions (Z.of_nat (length (args_of expr))) (args_of expr) 0.

(** The [for] loop of [Mul] with its [else] clause; [reals] is never
    changed by the loop. *)
Fixpoint Mul_loop (assumptions : Expr) (len_args : Z) (args : list Expr)
    (result : bool) (reals : Z) : option bool :=
  match args with
  | [] => if reals =? len_args then Some false else Some result
  | arg :: args' =>
      if truthy (ask K (Applied Q_imaginary arg) assumptions) then
        Mul_loop assumptions len_args args' (xorb result true) reals
      else if negb (truthy (ask K (Applied Q_real arg) assumptions)) then None
      else Mul_loop assumptions len_args args' result reals
  end.

Definition Mul (expr assumptions : Expr) : option bool :=
  if is_number K expr then Some (_number expr assumptions)
  else Mul_loop assumptions (Z.of_nat (length (args_of expr))) (args_of expr)
         false 0.

Definition Pow (expr assumptions : Expr) : res (option bool) :=
  if is_number K expr then Val (Some (_number expr assumptions)) else
  match base_exp expr with
  | None => Exc AttributeError
  | Some (base, exp) =>
    if truthy (ask K (Applied Q_imaginary base) assumptions) then
      if truthy (ask K (Applied Q_real exp) assumptions) then
        if truthy (ask K (Applied Q_odd exp) assumptions) then Val (Some true)
        else if truthy (ask K (Applied Q_even exp) assumptions) then Val (Some false)
        else Val None
      else Val None
    else if truthy (ask K (Applied Q_real base) assumptions) then
      if truthy (ask K (Applied Q_real exp) assumptions) then
        if match rational_q exp with
           | Some q => truthy (ask K (Applied Q_even (Integer q)) assumptions)
           | None => false
           end
        then Val (ask K (Applied Q_negative base) assumptions)
        else if truthy (ask K (Applied Q_integer exp) assumptions) then Val (Some false)
        else if truthy (ask K (Applied Q_positive base) assumptions) then Val (Some false)
        else if truthy (ask K (Applied Q_negative base) assumptions) then Val (Some true)
        else Val None
      else Val None
    else Val None
  end.

End Handler.
End AskImaginaryHandler.

Module AskAntiHermitianHandler.
Section Handler.
Context (K : Oracle).

Fixpoint Mul_loop (assumptions : Expr) (args : list Expr)
    (nccount : Z) (result : bool) : option bool :=
  match args with
  | [] => Some result
  | arg :: args' =>
      let step (result : bool) :=
        if truthy (ask K (Not (Applied Q_commutative arg)) assumptions) then
          let nccount := nccount + 1 in
          if nccount >? 1 then None
          else Mul_loop assumptions args' nccount result
        else Mul_loop assumptions args' nccount result in
      if truthy (ask K (Applied Q_antihermitian arg) assumptions) then
        step (xorb result true)
      else if negb (truthy (ask K (Applied Q_hermitian arg) assumptions)) then
        None
      else step result
  end.

Definition Mul (expr assumptions : Expr) : option bool :=
  if is_number K expr then Some (AskImaginaryHandler._number K expr assumptions)
  else Mul_loop assumptions (args_of expr) 0 false.

End Handler.
End AskAntiHermitianHandler.

(** A small oracle to run the handlers: integers are integer, real, even
    or odd by their value; [I] (the symbol of that name) is imaginary;
    [sqrt2] is real and irrational; operators are hermitian and do not
    commute; nothing else is known. *)
Module SampleOracle.

Definition ask (p : Proposition) (assumptions : Expr) : option bool :=
  match p with
  | Applied Q_integer (Integer _) => Some true
  | Applied Q_integer (Symbol "sqrt2") => Some false
  | Applied Q_irrational (Symbol "sqrt2") => Some true
  | Applied Q_real (Integer _) | Applied Q_real (Rational _ _)
  | Applied Q_real (Symbol "sqrt2") => Some true
  | Applied Q_real (Symbol "I") => Some false
  | Applied Q_imaginary (Symbol "I") => Some true
  | Applied Q_imaginary (Integer _) => Some false
  | Applied Q_even (Integer z) => Some (Z.even z)
  | Applied Q_odd (Integer z) => Some (Z.odd z)
  | Applied Q_positive (Integer z) => Some (0 <? z)
  | Applied Q_negative (Integer z) => Some (z <? 0)
  | Applied Q_hermitian (Operator _) => Some true
  | Applied Q_hermitian (Integer _) => Some true
  | Applied Q_antihermitian (Symbol "I") => Some true
  | Not (Applied Q_commutative (Operator _)) => Some true
  | _ => None
  end.

Definition oracle : Oracle :=
  mkOracle ask
    (fun _ _ _ => None)                    (* test_closed_group *)
    (fun _ => false)                       (* is_number *)
    (fun e => (e, Integer 0))              (* as_real_imag *)
    (fun e _ => e)                         (* evalf *)
    (fun _ => 1)                           (* _prec *)
    (fun e => negb (eqb e (Integer 0)))    (* truth *)
    (fun e => match e with Integer z => Some z | _ => None end)
    (fun a b => Some (eqb a b)).

End SampleOracle.

(** The sample library with a matcher that recognises the single
    integrand [f0], as [sin(x)**4 * cos(x)**(-2)], and nothing else. *)
Module SampleOneMatch.

Definition match_ (f : Expr) (p : Pattern) : option Match :=
  if eqb f (Symbol "f0") then Some (mkMatch (Integer 1) 4 (-2)) else None.

Definition library : Library :=
  mkLibrary
    Sample.canon
    (fun e => e)
    (fun e => e)
    (fun e => e)
    Sample.is_commutative
    Sample._apply_operator
    (fun f => f)
    match_
    (fun f x => Function "Integral" [f; x])
    (fun e old new => Function "Subs" [e; old; new]).

End SampleOneMatch.

(** * Notions about runs *)

Module Runs.
Import Trigonometry.

(** [m] never removes or replaces an entry of the table. *)
Definition keeps {A} (m : Cached A) : Prop :=
  forall c k p, cache_lookup k c = Some p ->
                cache_lookup k (snd (m c)) = Some p.

(** The only exceptions of [m] are those of an operation on [None]. *)
Definition raises_only_on_None {A} (m : Cached A) : Prop :=
  forall c e, fst (m c) = Exc e -> e = TypeError \/ e = AttributeError.

(** Every exception the outcome [o] can be satisfies [P]. *)
Definition raises_in {A} (P : exn -> Prop) (o : res A) : Prop :=
  forall x, o = Exc x -> P x.

End Runs.

(** * Facts *)

Lemma eqb_true (a b : Expr) : eqb a b = true <-> a = b.
Proof. unfold eqb. apply bool_decide_eq_true. Qed.

Lemma eqb_false (a b : Expr) : eqb a b = false <-> a <> b.
Proof. unfold eqb. apply bool_decide_eq_false. Qed.

Example eqb_example :
  eqb (Mul [Pow (Operator "A") (Integer (-1)); Ket "k"])
      (Mul [Pow (Operator "A") (Integer (-1)); Ket "k"]) = true
  /\ eqb (Integer 1) (Integer 0) = false.
Proof. split; vm_compute; reflexivity. Qed.


(** ** The outcome monad *)

Lemma res_le_refl {A} (o : res A) : res_le o o.
Proof. intros _. reflexivity. Qed.

Lemma res_le_Unfinished {A} (o : res A) : res_le Unfinished o.
Proof. intros H. contradiction. Qed.

Lemma res_le_bind {A B} (o1 o2 : res A) (k1 k2 : A -> res B) :
  res_le o1 o2 -> (forall a, res_le (k1 a) (k2 a)) ->
  res_le (o1 ≫= k1) (o2 ≫= k2).
Proof.
  intros Ho Hk. destruct o1 as [a|e|].
  - rewrite Ho by discriminate. apply Hk.
  - rewrite Ho by discriminate. apply res_le_refl.
  - apply res_le_Unfinished.
Qed.

Lemma res_le_Val {A} (o1 o2 : res A) (v : A) :
  res_le o1 o2 -> o1 = Val v -> o2 = Val v.
Proof. intros H ->. apply H. discriminate. Qed.

(** * Facts about trigonometry.py *)

Module TrigonometryTheory.
Import Trigonometry.

Section Facts.
Context (L : Library).

(** *** The memo table *)

Lemma coherent_nil : coherent L [].
Proof. constructor. Qed.

Lemma cache_lookup_coherent (c : Cache) (x : Expr) (p : Pattern) :
  coherent L c -> cache_lookup x c = Some p -> p = _pat_sincos_body L x.
Proof.
  induction 1 as [|[k q] c Hkq Hc IH]; simpl; [discriminate|].
  destruct (eqb k x) eqn:E.
  - intros [= <-]. apply eqb_true in E. subst k. exact Hkq.
  - exact IH.
Qed.

(** With a coherent table the memoised [_pat_sincos] returns what its
    body computes, and the table stays coherent. *)
Lemma _pat_sincos_coherent (x : Expr) (c : Cache) :
  coherent L c ->
  fst (_pat_sincos L x c) = Val (_pat_sincos_body L x)
  /\ coherent L (snd (_pat_sincos L x c)).
Proof.
  intros Hc. unfold _pat_sincos.
  destruct (cache_lookup x c) as [p|] eqn:E; simpl.
  - split; [|exact Hc]. f_equal. eapply cache_lookup_coherent; eauto.
  - split; [reflexivity|]. constructor; [reflexivity|exact Hc].
Qed.

(** *** Runs with different budgets and tables agree *)

Lemma agree_ret {A} (a : A) : agree L (ret a) (ret a).
Proof. intros c1 c2 H1 H2. simpl. auto using res_le_refl. Qed.

Lemma agree_raise {A} (e : exn) : agree L (@raise A e) (raise e).
Proof. intros c1 c2 H1 H2. simpl. auto using res_le_refl. Qed.

Lemma agree_unfinished {A} (m : Cached A) : agree L m m -> agree L unfinished m.
Proof.
  intros Hm c1 c2 H1 H2. simpl.
  destruct (Hm c2 c2 H2 H2) as (_ & H & _).
  auto using res_le_Unfinished.
Qed.

Lemma agree_bind {A B} (m1 m2 : Cached A) (k1 k2 : A -> Cached B) :
  agree L m1 m2 -> (forall a, agree L (k1 a) (k2 a)) ->
  agree L (bind m1 k1) (bind m2 k2).
Proof.
  intros Hm Hk c1 c2 H1 H2. unfold bind.
  destruct (Hm c1 c2 H1 H2) as (Hc1 & Hc2 & Hle).
  destruct (m1 c1) as [o1 c1'], (m2 c2) as [o2 c2']; simpl in *.
  repeat split.
  - destruct o1 as [a| |]; simpl; auto.
    apply (Hk a c1' c1'); assumption.
  - destruct o2 as [a| |]; simpl; auto.
    apply (Hk a c2' c2'); assumption.
  - destruct o1 as [a|e|]; simpl.
    + rewrite Hle by discriminate. apply (Hk a c1' c2'); assumption.
    + rewrite Hle by discriminate. apply res_le_refl.
    + apply res_le_Unfinished.
Qed.

Lemma agree_for_each {A B} (l : list B) (body1 body2 : A -> B -> Cached A) :
  (forall acc i, agree L (body1 acc i) (body2 acc i)) ->
  forall acc, agree L (for_each l body1 acc) (for_each l body2 acc).
Proof.
  intros Hb. induction l as [|i l IH]; intros acc; simpl.
  - apply agree_ret.
  - apply agree_bind; [apply Hb | exact IH].
Qed.

Lemma agree_pat_sincos (x : Expr) : agree L (_pat_sincos L x) (_pat_sincos L x).
Proof.
  intros c1 c2 H1 H2.
  destruct (_pat_sincos_coherent x c1 H1) as [E1 C1].
  destruct (_pat_sincos_coherent x c2 H2) as [E2 C2].
  repeat split; try assumption.
  rewrite E1, E2. apply res_le_refl.
Qed.

Lemma agree_mul_result (c : Expr) (r : option Expr) :
  agree L (mul_result L c r) (mul_result L c r).
Proof. destruct r; [apply agree_ret | apply agree_raise]. Qed.

Lemma agree_subs_result (r : option Expr) (old new : Expr) :
  agree L (subs_result L r old new) (subs_result L r old new).
Proof. destruct r; [apply agree_ret | apply agree_raise]. Qed.

(** One more level of recursion on both sides. *)
Ltac agree_congruence :=
  repeat first
    [ apply agree_ret
    | apply agree_raise
    | apply agree_pat_sincos
    | apply agree_mul_result
    | apply agree_subs_result
    | match goal with H : forall _ , _ |- _ => apply H end
    | apply agree_bind; [|intros ?]
    | apply agree_for_each; intros ? ?
    | match goal with
      | |- agree L (if ?b then _ else _) (if ?b then _ else _) => destruct b
      | |- agree L (match ?x with _ => _ end) (match ?x with _ => _ end) =>
          destruct x
      end ].

Section Step.
Context (f1 f2 : nat).
Hypothesis Ht : forall f x conds,
  agree L (trigintegrate L f1 f x conds) (trigintegrate L f2 f x conds).
Hypothesis Hs : forall n x,
  agree L (_sin_pow_integrate L f1 n x) (_sin_pow_integrate L f2 n x).
Hypothesis Hc : forall n x,
  agree L (_cos_pow_integrate L f1 n x) (_cos_pow_integrate L f2 n x).

Lemma agree_step_sin (n : Z) (x : Expr) :
  agree L (_sin_pow_integrate L (S f1) n x) (_sin_pow_integrate L (S f2) n x).
Proof. simpl. agree_congruence. Qed.

Lemma agree_step_cos (n : Z) (x : Expr) :
  agree L (_cos_pow_integrate L (S f1) n x) (_cos_pow_integrate L (S f2) n x).
Proof. simpl. agree_congruence. Qed.

Lemma agree_step_trig (f x : Expr) (conds : string) :
  agree L (trigintegrate L (S f1) f x conds) (trigintegrate L (S f2) f x conds).
Proof. simpl. agree_congruence. Qed.
End Step.

Lemma agree_unfinished_unfinished {A} : agree L (@unfinished A) unfinished.
Proof. intros c1 c2 H1 H2. simpl. auto using res_le_Unfinished. Qed.

(** A run with a larger budget agrees with a run with a smaller one. *)
Lemma agree_fuel (f2 : nat) : forall f1, (f1 <= f2)%nat ->
  (forall f x conds,
      agree L (trigintegrate L f1 f x conds) (trigintegrate L f2 f x conds))
  /\ (forall n x,
      agree L (_sin_pow_integrate L f1 n x) (_sin_pow_integrate L f2 n x))
  /\ (forall n x,
      agree L (_cos_pow_integrate L f1 n x) (_cos_pow_integrate L f2 n x)).
Proof.
  induction f2 as [|f2 IH]; intros f1 Hle.
  - assert (f1 = 0%nat) as -> by lia.
    split; [|split]; intros; apply agree_unfinished_unfinished.
  - destruct (IH f2 (le_n _)) as (Ht & Hs & Hc).
    destruct f1 as [|f1].
    + split; [|split]; intros; apply agree_unfinished;
        [apply agree_step_trig | apply agree_step_sin | apply agree_step_cos];
        assumption.
    + destruct (IH f1 ltac:(lia)) as (Ht' & Hs' & Hc').
      split; [|split]; intros;
        [apply agree_step_trig | apply agree_step_sin | apply agree_step_cos];
        assumption.
Qed.

(** Two finished runs of [trigintegrate] on the same arguments agree,
    whatever their budgets and their (coherent) memo tables. *)
Lemma trigintegrate_runs_agree (f x : Expr) (conds : string)
    (fuel1 fuel2 : nat) (c1 c2 : Cache) :
  coherent L c1 -> coherent L c2 ->
  fst (trigintegrate L fuel1 f x conds c1) <> Unfinished ->
  fst (trigintegrate L fuel2 f x conds c2) <> Unfinished ->
  fst (trigintegrate L fuel1 f x conds c1)
  = fst (trigintegrate L fuel2 f x conds c2).
Proof.
  intros H1 H2 N1 N2.
  destruct (agree_fuel (Nat.max fuel1 fuel2) fuel1 (Nat.le_max_l _ _))
    as (Ht1 & _).
  destruct (agree_fuel (Nat.max fuel1 fuel2) fuel2 (Nat.le_max_r _ _))
    as (Ht2 & _).
  destruct (Ht1 f x conds c1 c1 H1 H1) as (_ & _ & E1).
  destruct (Ht2 f x conds c2 c1 H2 H1) as (_ & _ & E2).
  rewrite <- (E1 N1). apply E2. exact N2.
Qed.

(** *** The two power integrators on non-negative exponents *)

Lemma sin_pow_nonneg (x : Expr) : forall (k : nat) (n : Z),
  0 <= n -> n / 2 < Z.of_nat k ->
  exists r, forall fuel c, (k <= fuel)%nat ->
    _sin_pow_integrate L fuel n x c = (Val (Some r), c).
Proof.
  induction k as [|k IH]; intros n Hn Hk.
  - pose proof (Z.div_pos n 2 Hn ltac:(lia)). lia.
  - destruct (Z.gtb_spec n 0) as [Hpos|Hnpos].
    + destruct (Z.eqb_spec n 1) as [->|Hn1].
      * eexists. intros [|fuel] c Hf; [lia|]. reflexivity.
      * destruct (IH (n - 2)) as [r Hr]; [lia| |].
        { replace (n - 2) with (n + (-1) * 2) by lia.
          rewrite Z.div_add by lia. lia. }
        eexists. intros [|fuel] c Hf; [lia|]. simpl.
        destruct (Z.gtb_spec n 0); [|lia].
        destruct (Z.eqb_spec n 1); [lia|].
        unfold bind. rewrite Hr by lia. simpl. reflexivity.
    + assert (n = 0) as -> by lia.
      eexists. intros [|fuel] c Hf; [lia|]. reflexivity.
Qed.

Lemma cos_pow_nonneg (x : Expr) : forall (k : nat) (n : Z),
  0 <= n -> n / 2 < Z.of_nat k ->
  exists r, forall fuel c, (k <= fuel)%nat ->
    _cos_pow_integrate L fuel n x c = (Val (Some r), c).
Proof.
  induction k as [|k IH]; intros n Hn Hk.
  - pose proof (Z.div_pos n 2 Hn ltac:(lia)). lia.
  - destruct (Z.gtb_spec n 0) as [Hpos|Hnpos].
    + destruct (Z.eqb_spec n 1) as [->|Hn1].
      * eexists. intros [|fuel] c Hf; [lia|]. reflexivity.
      * destruct (IH (n - 2)) as [r Hr]; [lia| |].
        { replace (n - 2) with (n + (-1) * 2) by lia.
          rewrite Z.div_add by lia. lia. }
        eexists. intros [|fuel] c Hf; [lia|]. simpl.
        destruct (Z.gtb_spec n 0); [|lia].
        destruct (Z.eqb_spec n 1); [lia|].
        unfold bind. rewrite Hr by lia. simpl. reflexivity.
    + assert (n = 0) as -> by lia.
      eexists. intros [|fuel] c Hf; [lia|]. reflexivity.
Qed.

(** *** Values of the expressions the operators build *)

Section Values.
Context (rho : Expr -> Q) (Hsound : canon_sound L rho).

Lemma eval_canon (e : Expr) : (eval rho (canon L e) == eval rho e)%Q.
Proof. apply Hsound. Qed.

Lemma eval_add (a b : Expr) :
  (eval rho (add L a b) == eval rho a + eval rho b)%Q.
Proof. unfold add. rewrite eval_canon. simpl. ring. Qed.

Lemma eval_mul (a b : Expr) :
  (eval rho (mul L a b) == eval rho a * eval rho b)%Q.
Proof. unfold mul. rewrite eval_canon. simpl. ring. Qed.

Lemma eval_neg (a : Expr) : (eval rho (neg L a) == - eval rho a)%Q.
Proof. unfold neg. rewrite eval_canon. simpl. ring. Qed.

Lemma eval_pow (b : Expr) (k : Z) :
  (eval rho (pow L b (Integer k)) == Qpower (eval rho b) k)%Q.
Proof. unfold pow. rewrite eval_canon. reflexivity. Qed.

Lemma eval_div (a b : Expr) :
  (eval rho (div L a b) == eval rho a / eval rho b)%Q.
Proof.
  unfold div. rewrite eval_canon. simpl. rewrite eval_pow. simpl.
  unfold Qdiv. ring.
Qed.

Lemma eval_rational (p q : Z) :
  (eval rho (rational L p q) == inject_Z p / inject_Z q)%Q.
Proof. unfold rational. rewrite eval_canon. reflexivity. Qed.
End Values.

Lemma inject_Z_nonzero (n : Z) : n <> 0 -> ~ (inject_Z n == 0)%Q.
Proof. intros Hn H. apply Hn. unfold Qeq in H. simpl in H. lia. Qed.

(** C3. [_sin_pow_integrate] follows the sine reduction formula: it
    returns [x] for [n = 0] and [-cos(x)] for [n = 1]; for every [n > 1]
    it returns [Rational(-1, n)*cos(x)*sin(x)**(n-1) +
    Rational(n-1, n)*r], where [r] is what [_sin_pow_integrate(n-2, x)]
    returns, and that expression has the value of
    [-cos(x)*sin(x)**(n-1)/n + ((n-1)/n)*r]. *)
Theorem sin_pow_integrate_reduction (x : Expr) :
  returns (fun fuel => _sin_pow_integrate L fuel 0 x) (Some x)
  /\ returns (fun fuel => _sin_pow_integrate L fuel 1 x)
             (Some (neg L (cos_ L x)))
  /\ forall n : Z, 1 < n ->
     exists r : Expr,
       returns (fun fuel => _sin_pow_integrate L fuel (n - 2) x) (Some r)
       /\ returns (fun fuel => _sin_pow_integrate L fuel n x)
            (Some (add L (mul L (mul L (rational L (-1) n) (cos_ L x))
                                (pow L (sin_ L x) (Integer (n - 1))))
                         (mul L (rational L (n - 1) n) r)))
       /\ forall rho, canon_sound L rho ->
            (eval rho (add L (mul L (mul L (rational L (-1) n) (cos_ L x))
                                    (pow L (sin_ L x) (Integer (n - 1))))
                             (mul L (rational L (n - 1) n) r))
             == eval rho (sin_reduction_formula L n x r))%Q.
Proof.
  split; [|split].
  - exists 1%nat. intros [|fuel] c Hf; [lia|]. reflexivity.
  - exists 1%nat. intros [|fuel] c Hf; [lia|]. reflexivity.
  - intros n Hn.
    assert (Hdiv : (n - 2) / 2 = n / 2 - 1).
    { replace (n - 2) with (n + (-1) * 2) by lia.
      rewrite Z.div_add by lia. lia. }
    assert (Hpos : 1 <= n / 2) by (apply Z.div_le_lower_bound; lia).
    destruct (sin_pow_nonneg x (Z.to_nat (n / 2)) (n - 2)) as [r Hr];
      [lia | lia |].
    exists r. split; [|split].
    + exists (Z.to_nat (n / 2)). exact Hr.
    + exists (S (Z.to_nat (n / 2))). intros [|fuel] c Hf; [lia|]. simpl.
      destruct (Z.gtb_spec n 0); [|lia].
      destruct (Z.eqb_spec n 1); [lia|].
      unfold bind. rewrite Hr by lia. reflexivity.
    + intros rho Hsound. unfold sin_reduction_formula.
      repeat first
        [ rewrite (eval_add rho Hsound) | rewrite (eval_mul rho Hsound)
        | rewrite (eval_div rho Hsound) | rewrite (eval_neg rho Hsound)
        | rewrite (eval_rational rho Hsound) ].
      simpl. pose proof (inject_Z_nonzero n ltac:(lia)). field. assumption.
Qed.

(** C7. [_cos_pow_integrate] follows the cosine reduction formula: it
    returns [x] for [n = 0] and [sin(x)] for [n = 1]; for every [n > 1]
    it returns [Rational(1, n)*sin(x)*cos(x)**(n-1) +
    Rational(n-1, n)*r], where [r] is what [_cos_pow_integrate(n-2, x)]
    returns, and that expression has the value of
    [(1/n)*sin(x)*cos(x)**(n-1) + ((n-1)/n)*r]. *)
Theorem cos_pow_integrate_reduction (x : Expr) :
  returns (fun fuel => _cos_pow_integrate L fuel 0 x) (Some x)
  /\ returns (fun fuel => _cos_pow_integrate L fuel 1 x) (Some (sin_ L x))
  /\ forall n : Z, 1 < n ->
     exists r : Expr,
       returns (fun fuel => _cos_pow_integrate L fuel (n - 2) x) (Some r)
       /\ returns (fun fuel => _cos_pow_integrate L fuel n x)
            (Some (add L (mul L (mul L (rational L 1 n) (sin_ L x))
                                (pow L (cos_ L x) (Integer (n - 1))))
                         (mul L (rational L (n - 1) n) r)))
       /\ forall rho, canon_sound L rho ->
            (eval rho (add L (mul L (mul L (rational L 1 n) (sin_ L x))
                                    (pow L (cos_ L x) (Integer (n - 1))))
                             (mul L (rational L (n - 1) n) r))
             == eval rho (cos_reduction_formula L n x r))%Q.
Proof.
  split; [|split].
  - exists 1%nat. intros [|fuel] c Hf; [lia|]. reflexivity.
  - exists 1%nat. intros [|fuel] c Hf; [lia|]. reflexivity.
  - intros n Hn.
    assert (Hdiv : (n - 2) / 2 = n / 2 - 1).
    { replace (n - 2) with (n + (-1) * 2) by lia.
      rewrite Z.div_add by lia. lia. }
    assert (Hpos : 1 <= n / 2) by (apply Z.div_le_lower_bound; lia).
    destruct (cos_pow_nonneg x (Z.to_nat (n / 2)) (n - 2)) as [r Hr];
      [lia | lia |].
    exists r. split; [|split].
    + exists (Z.to_nat (n / 2)). exact Hr.
    + exists (S (Z.to_nat (n / 2))). intros [|fuel] c Hf; [lia|]. simpl.
      destruct (Z.gtb_spec n 0); [|lia].
      destruct (Z.eqb_spec n 1); [lia|].
      unfold bind. rewrite Hr by lia. reflexivity.
    + intros rho Hsound. unfold cos_reduction_formula.
      repeat first
        [ rewrite (eval_add rho Hsound) | rewrite (eval_mul rho Hsound)
        | rewrite (eval_div rho Hsound) | rewrite (eval_neg rho Hsound)
        | rewrite (eval_rational rho Hsound) ].
      simpl. pose proof (inject_Z_nonzero n ltac:(lia)). field. assumption.
Qed.

(** *** Termination of the two power integrators *)

(** Reading the pattern from a coherent table. *)
Lemma _pat_sincos_run (x : Expr) (c : Cache) :
  coherent L c ->
  exists c', _pat_sincos L x c = (Val (_pat_sincos_body L x), c')
             /\ coherent L c'.
Proof.
  intros Hc. destruct (_pat_sincos_coherent x c Hc) as [E1 E2].
  destruct (_pat_sincos L x c) as [o c']. simpl in *. subst o. eauto.
Qed.

Lemma trigintegrate_settles (f x : Expr) (conds : string) (fuel : nat)
    (c : Cache) :
  coherent L c -> settles_directly L f x = true ->
  fst (trigintegrate L (S fuel) f x conds c) <> Unfinished.
Proof.
  intros Hc Hs. simpl. unfold bind at 1.
  destruct (_pat_sincos_run x c Hc) as (c' & -> & _).
  unfold settles_directly in Hs.
  destruct (match_ L (rewrite_sincos L f) (_pat_sincos_body L x)) as [M|];
    [|simpl; discriminate].
  destruct ((M_n M =? 0) && (M_m M =? 0)); [simpl; discriminate|].
  simpl in Hs. rewrite Hs.
  destruct (Z.odd (M_n M)), (Z.odd (M_m M)), (M_n M <? M_m M),
    (String.eqb conds "piecewise"); simpl in *;
    try discriminate.
Qed.

Lemma bind_finishes {A B} (m : Cached A) (k : A -> Cached B) (c : Cache) :
  fst (m c) <> Unfinished -> (forall a c', fst (k a c') <> Unfinished) ->
  fst (bind m k c) <> Unfinished.
Proof.
  intros Hm Hk. unfold bind. destruct (m c) as [[a|e|] c']; simpl in *.
  - apply Hk.
  - discriminate.
  - contradiction.
Qed.

Lemma reduction_step_finishes (m : Cached (option Expr)) (q : Expr)
    (g : Expr -> Expr) (c : Cache) :
  fst (m c) <> Unfinished ->
  fst (bind m (fun r => bind (mul_result L q r)
                             (fun t => ret (Some (g t)))) c) <> Unfinished.
Proof.
  intros Hm. apply bind_finishes; [exact Hm|].
  intros [e|] c'; simpl; discriminate.
Qed.

Lemma abs_half_step (n : Z) : 2 <= Z.abs n -> (Z.abs n - 2) / 2 = Z.abs n / 2 - 1.
Proof.
  intros _. replace (Z.abs n - 2) with (Z.abs n + (-1) * 2) by lia.
  rewrite Z.div_add by lia. lia.
Qed.

Lemma sin_pow_terminates (x : Expr) :
  settles_directly L (div L (Integer 1) (sin_ L x)) x = true ->
  forall (fuel : nat) (n : Z) (c : Cache),
    coherent L c -> Z.abs n / 2 + 2 <= Z.of_nat fuel ->
    fst (_sin_pow_integrate L fuel n x c) <> Unfinished.
Proof.
  intros Hs. induction fuel as [|fuel IH]; intros n c Hc Hf.
  - pose proof (Z.div_pos (Z.abs n) 2 (Z.abs_nonneg n) ltac:(lia)). lia.
  - pose proof (Z.div_pos (Z.abs n) 2 (Z.abs_nonneg n) ltac:(lia)) as Hh.
    simpl. destruct (Z.gtb_spec n 0) as [Hpos|Hnpos].
    + destruct (Z.eqb_spec n 1) as [->|Hn1]; [simpl; discriminate|].
      apply reduction_step_finishes. apply IH; [exact Hc|].
      replace (Z.abs (n - 2)) with (Z.abs n - 2) by lia.
      rewrite abs_half_step by lia. lia.
    + destruct (Z.ltb_spec n 0) as [Hneg|Hnneg]; [|simpl; discriminate].
      destruct (Z.eqb_spec n (-1)) as [->|Hn1].
      * destruct fuel as [|fuel]; [lia|].
        apply trigintegrate_settles; assumption.
      * apply reduction_step_finishes. apply IH; [exact Hc|].
        replace (Z.abs (n + 2)) with (Z.abs n - 2) by lia.
        rewrite abs_half_step by lia. lia.
Qed.

Lemma cos_pow_terminates (x : Expr) :
  settles_directly L (div L (Integer 1) (cos_ L x)) x = true ->
  forall (fuel : nat) (n : Z) (c : Cache),
    coherent L c -> Z.abs n / 2 + 2 <= Z.of_nat fuel ->
    fst (_cos_pow_integrate L fuel n x c) <> Unfinished.
Proof.
  intros Hs. induction fuel as [|fuel IH]; intros n c Hc Hf.
  - pose proof (Z.div_pos (Z.abs n) 2 (Z.abs_nonneg n) ltac:(lia)). lia.
  - pose proof (Z.div_pos (Z.abs n) 2 (Z.abs_nonneg n) ltac:(lia)) as Hh.
    simpl. destruct (Z.gtb_spec n 0) as [Hpos|Hnpos].
    + destruct (Z.eqb_spec n 1) as [->|Hn1]; [simpl; discriminate|].
      apply reduction_step_finishes. apply IH; [exact Hc|].
      replace (Z.abs (n - 2)) with (Z.abs n - 2) by lia.
      rewrite abs_half_step by lia. lia.
    + destruct (Z.ltb_spec n 0) as [Hneg|Hnneg]; [|simpl; discriminate].
      destruct (Z.eqb_spec n (-1)) as [->|Hn1].
      * destruct fuel as [|fuel]; [lia|].
        apply trigintegrate_settles; assumption.
      * apply reduction_step_finishes. apply IH; [exact Hc|].
        replace (Z.abs (n + 2)) with (Z.abs n - 2) by lia.
        rewrite abs_half_step by lia. lia.
Qed.

(** C4. [_sin_pow_integrate(n, x)] and [_cos_pow_integrate(n, x)]
    terminate for every integer [n]: each call moves [n] by two towards
    zero, so a recursion depth of [|n|/2 + 2] is enough, provided the
    calls [trigintegrate(1/sin(x), x)] and [trigintegrate(1/cos(x), x)]
    made at [n = -1] are settled by [trigintegrate] itself. *)
Theorem pow_integrate_terminates (x : Expr) (n : Z) (fuel : nat) (c : Cache) :
  coherent L c ->
  settles_directly L (div L (Integer 1) (sin_ L x)) x = true ->
  settles_directly L (div L (Integer 1) (cos_ L x)) x = true ->
  Z.abs n / 2 + 2 <= Z.of_nat fuel ->
  fst (_sin_pow_integrate L fuel n x c) <> Unfinished
  /\ fst (_cos_pow_integrate L fuel n x c) <> Unfinished.
Proof.
  intros Hc Hs Hc' Hf. split.
  - apply sin_pow_terminates; assumption.
  - apply cos_pow_terminates; assumption.
Qed.

(** *** What [trigintegrate] returns *)

Lemma bind_Val_inv {A B} (m : Cached A) (k : A -> Cached B) (c : Cache)
    (v : B) :
  fst (bind m k c) = Val v ->
  exists a c', m c = (Val a, c') /\ fst (k a c') = Val v.
Proof.
  unfold bind. destruct (m c) as [[a|e|] c']; simpl; try discriminate.
  eauto.
Qed.

(** Inverting a finished run, one statement at a time. *)
Ltac invert_run :=
  repeat match goal with
    | H : fst (bind _ _ _) = Val _ |- _ =>
        apply bind_Val_inv in H; destruct H as (? & ? & _ & H)
    | H : fst ((if ?b then _ else _) _) = Val _ |- _ => destruct b
    | H : fst ((let (_, _) := ?p in _) _) = Val _ |- _ => destruct p
    | H : fst (ret _ _) = Val _ |- _ => simpl in H
    end.

(** Once the integrand matches, [trigintegrate] never returns [None]. *)
Lemma trigintegrate_matched_not_None (fuel : nat) (f x : Expr)
    (conds : string) (c : Cache) (M : Match) :
  coherent L c ->
  match_ L (rewrite_sincos L f) (_pat_sincos_body L x) = Some M ->
  fst (trigintegrate L (S fuel) f x conds c) <> Val None.
Proof.
  intros Hc HM H. simpl in H. unfold bind at 1 in H.
  destruct (_pat_sincos_run x c Hc) as (c' & E & _). rewrite E in H.
  rewrite HM in H.
  invert_run; discriminate.
Qed.

(** C8. [trigintegrate(f, x, conds)] returns [None] exactly when [f],
    rewritten in terms of [sin] and [cos], does not match the pattern
    [sin(a*x)**n * cos(a*x)**m]; in that case the call returns normally. *)
Theorem trigintegrate_None_iff (fuel : nat) (f x : Expr) (conds : string)
    (c : Cache) :
  coherent L c ->
  fst (trigintegrate L (S fuel) f x conds c) = Val None
  <-> match_ L (rewrite_sincos L f) (_pat_sincos_body L x) = None.
Proof.
  intros Hc. split.
  - intros H.
    destruct (match_ L (rewrite_sincos L f) (_pat_sincos_body L x))
      as [M|] eqn:HM; [|reflexivity].
    exfalso. eapply trigintegrate_matched_not_None; eauto.
  - intros HM. simpl. unfold bind at 1.
    destruct (_pat_sincos_run x c Hc) as (c' & -> & _).
    rewrite HM. reflexivity.
Qed.

(** C9, amended.  With [conds='piecewise'], a result of [trigintegrate]
    other than [None] comes from a match; it is the bare [x] when both
    matched exponents are zero, and otherwise what the call
    [Piecewise((zz, Eq(a, 0)), (q / a, True))] builds, with [zz] equal to
    [x] when the sine exponent is zero and to [0] otherwise, so that where
    [Eq(a, 0)] holds the piece selected is [zz], not the quotient. *)
Theorem trigintegrate_piecewise_shape (fuel : nat) (f x : Expr) (c : Cache)
    (r : Expr) :
  coherent L c ->
  fst (trigintegrate L fuel f x "piecewise" c) = Val (Some r) ->
  exists M : Match,
    match_ L (rewrite_sincos L f) (_pat_sincos_body L x) = Some M
    /\ if (M_n M =? 0) && (M_m M =? 0) then r = x
       else exists q : Expr,
         let zz := if M_n M =? 0 then x else Integer 0 in
         let pieces := [(zz, Eq_ L (M_a M) (Integer 0));
                        (div L q (M_a M), BooleanTrue)] in
         r = Piecewise_ L pieces
         /\ forall holds : Expr -> bool,
              holds (Eq_ L (M_a M) (Integer 0)) = true ->
              piecewise_select holds pieces = Some zz.
Proof.
  intros Hc H. destruct fuel as [|fuel]; [discriminate|].
  simpl in H. unfold bind at 1 in H.
  destruct (_pat_sincos_run x c Hc) as (c' & E & _). rewrite E in H.
  destruct (match_ L (rewrite_sincos L f) (_pat_sincos_body L x))
    as [M|] eqn:HM; [|discriminate].
  exists M. split; [reflexivity|].
  destruct ((M_n M =? 0) && (M_m M =? 0)).
  - simpl in H. congruence.
  - invert_run; try discriminate;
      injection H as <-; eexists; (split; [reflexivity|]);
      intros holds Hh; simpl; rewrite Hh; reflexivity.
Qed.

End Facts.

(** *** The sample library *)

Lemma sample_canon_sound (rho : Expr -> Q) : canon_sound Sample.library rho.
Proof.
  intros e.
  destruct e as [z|p q|name|name|name exclude props| |args|args|b ex|a|a
                |name args|l r|pieces|label|label|label|k b|b k|A B|A B|a
                |args|args|args]; try reflexivity.
  - destruct args as [|a [|b l]]; simpl; try reflexivity. ring.
  - destruct args as [|a [|b l]]; simpl; try reflexivity. ring.
  - destruct ex; try reflexivity.
    destruct z as [|[p|p|]|p]; reflexivity.
Qed.

Lemma sin_pow_integrate_reduction_witness :
  1 < 3
  /\ canon_sound Sample.library (fun _ => 1%Q)
  /\ exists r : Expr,
       returns (fun fuel => _sin_pow_integrate Sample.library fuel (3 - 2) (Symbol "x"))
               (Some r)
       /\ returns (fun fuel => _sin_pow_integrate Sample.library fuel 3 (Symbol "x"))
            (Some (add Sample.library
                     (mul Sample.library
                        (mul Sample.library (rational Sample.library (-1) 3)
                                            (cos_ Sample.library (Symbol "x")))
                        (pow Sample.library (sin_ Sample.library (Symbol "x"))
                                            (Integer (3 - 1))))
                     (mul Sample.library (rational Sample.library (3 - 1) 3) r)))
       /\ forall rho, canon_sound Sample.library rho ->
            (eval rho (add Sample.library
                     (mul Sample.library
                        (mul Sample.library (rational Sample.library (-1) 3)
                                            (cos_ Sample.library (Symbol "x")))
                        (pow Sample.library (sin_ Sample.library (Symbol "x"))
                                            (Integer (3 - 1))))
                     (mul Sample.library (rational Sample.library (3 - 1) 3) r))
             == eval rho (sin_reduction_formula Sample.library 3 (Symbol "x") r))%Q.
Proof.
  split; [lia|]. split; [apply sample_canon_sound|].
  exact (proj2 (proj2 (sin_pow_integrate_reduction Sample.library (Symbol "x")))
           3 ltac:(lia)).
Defined.

Lemma cos_pow_integrate_reduction_witness :
  1 < 2
  /\ canon_sound Sample.library (fun _ => 1%Q)
  /\ exists r : Expr,
       returns (fun fuel => _cos_pow_integrate Sample.library fuel (2 - 2) (Symbol "x"))
               (Some r)
       /\ returns (fun fuel => _cos_pow_integrate Sample.library fuel 2 (Symbol "x"))
            (Some (add Sample.library
                     (mul Sample.library
                        (mul Sample.library (rational Sample.library 1 2)
                                            (sin_ Sample.library (Symbol "x")))
                        (pow Sample.library (cos_ Sample.library (Symbol "x"))
                                            (Integer (2 - 1))))
                     (mul Sample.library (rational Sample.library (2 - 1) 2) r)))
       /\ forall rho, canon_sound Sample.library rho ->
            (eval rho (add Sample.library
                     (mul Sample.library
                        (mul Sample.library (rational Sample.library 1 2)
                                            (sin_ Sample.library (Symbol "x")))
                        (pow Sample.library (cos_ Sample.library (Symbol "x"))
                                            (Integer (2 - 1))))
                     (mul Sample.library (rational Sample.library (2 - 1) 2) r))
             == eval rho (cos_reduction_formula Sample.library 2 (Symbol "x") r))%Q.
Proof.
  split; [lia|]. split; [apply sample_canon_sound|].
  exact (proj2 (proj2 (cos_pow_integrate_reduction Sample.library (Symbol "x")))
           2 ltac:(lia)).
Defined.

Lemma pow_integrate_terminates_witness :
  coherent Sample.library []
  /\ settles_directly Sample.library
       (div Sample.library (Integer 1) (sin_ Sample.library (Symbol "x")))
       (Symbol "x") = true
  /\ settles_directly Sample.library
       (div Sample.library (Integer 1) (cos_ Sample.library (Symbol "x")))
       (Symbol "x") = true
  /\ Z.abs (-5) / 2 + 2 <= Z.of_nat 4
  /\ fst (_sin_pow_integrate Sample.library 4 (-5) (Symbol "x") []) <> Unfinished
  /\ fst (_cos_pow_integrate Sample.library 4 (-5) (Symbol "x") []) <> Unfinished.
Proof.
  split; [constructor|]. split; [reflexivity|]. split; [reflexivity|].
  split; [vm_compute; discriminate|].
  apply (pow_integrate_terminates Sample.library (Symbol "x") (-5) 4 []).
  - constructor.
  - reflexivity.
  - reflexivity.
  - vm_compute; discriminate.
Defined.

Lemma trigintegrate_None_iff_witness :
  coherent Sample.library []
  /\ (fst (trigintegrate Sample.library 1 (Symbol "y") (Symbol "x") "piecewise" [])
      = Val None
      <-> match_ Sample.library (rewrite_sincos Sample.library (Symbol "y"))
                 (_pat_sincos_body Sample.library (Symbol "x")) = None).
Proof.
  split; [constructor|].
  apply (trigintegrate_None_iff Sample.library 0 (Symbol "y") (Symbol "x")
           "piecewise" []).
  constructor.
Defined.

(** The integrand [sin(x)**2] with [conds='piecewise']. *)
Lemma trigintegrate_piecewise_shape_witness :
  exists r : Expr,
    coherent Sample.library []
    /\ fst (trigintegrate Sample.library 3 (Pow (sin (Symbol "x")) (Integer 2))
                          (Symbol "x") "piecewise" []) = Val (Some r)
    /\ exists M : Match,
         match_ Sample.library
           (rewrite_sincos Sample.library (Pow (sin (Symbol "x")) (Integer 2)))
           (_pat_sincos_body Sample.library (Symbol "x")) = Some M
         /\ if (M_n M =? 0) && (M_m M =? 0) then r = Symbol "x"
            else exists q : Expr,
              let zz := if M_n M =? 0 then Symbol "x" else Integer 0 in
              let pieces := [(zz, Eq_ Sample.library (M_a M) (Integer 0));
                             (div Sample.library q (M_a M), BooleanTrue)] in
              r = Piecewise_ Sample.library pieces
              /\ forall holds : Expr -> bool,
                   holds (Eq_ Sample.library (M_a M) (Integer 0)) = true ->
                   piecewise_select holds pieces = Some zz.
Proof.
  eexists. split; [constructor|].
  split; [vm_compute; reflexivity|].
  apply (trigintegrate_piecewise_shape Sample.library 3
           (Pow (sin (Symbol "x")) (Integer 2)) (Symbol "x") []).
  - constructor.
  - vm_compute. reflexivity.
Defined.

(** C9 as stated fails: when both matched exponents are zero the result is
    the bare [x], which is no [Piecewise]. *)
Lemma trigintegrate_bare_x :
  fst (trigintegrate Sample.library 1 (Integer 1) (Symbol "x") "piecewise" [])
  = Val (Some (Symbol "x"))
  /\ match_ Sample.library (rewrite_sincos Sample.library (Integer 1))
             (_pat_sincos_body Sample.library (Symbol "x"))
     = Some (mkMatch (Integer 1) 0 0)
  /\ forall pieces, Symbol "x" <> Piecewise_ Sample.library pieces.
Proof. split; [reflexivity|]. split; [reflexivity|]. intros pieces. discriminate. Qed.

End TrigonometryTheory.

(** * Facts about qapply.py *)

Module QApplyTheory.
Import QApply.

Section Facts.
Context (L : Library).

(** *** Runs with different budgets agree *)

Lemma list_comprehension_le {A B} (body1 body2 : A -> res B) (l : list A) :
  (forall x, res_le (body1 x) (body2 x)) ->
  res_le (list_comprehension body1 l) (list_comprehension body2 l).
Proof.
  intros Hb. induction l as [|x l IH]; simpl.
  - apply res_le_refl.
  - apply res_le_bind; [apply Hb|]. intros y.
    apply res_le_bind; [exact IH|]. intros ys. apply res_le_refl.
Qed.

Lemma for_each_le {A B} (l : list B) (body1 body2 : A -> B -> res A) :
  (forall acc x, res_le (body1 acc x) (body2 acc x)) ->
  forall acc, res_le (for_each l body1 acc) (for_each l body2 acc).
Proof.
  intros Hb. induction l as [|x l IH]; intros acc; simpl.
  - apply res_le_refl.
  - apply res_le_bind; [apply Hb | exact IH].
Qed.

(** One more level of recursion on both sides. *)
Ltac le_congruence :=
  repeat first
    [ apply res_le_refl
    | match goal with H : forall _ , _ |- _ => apply H end
    | apply res_le_bind; [|intros ?]
    | apply list_comprehension_le; intros ?
    | apply for_each_le; intros ? ?
    | match goal with
      | |- res_le (if ?b then _ else _) (if ?b then _ else _) => destruct b
      | |- res_le (match ?x with _ => _ end) (match ?x with _ => _ end) =>
          destruct x
      end ].

Section Step.
Context (f1 f2 : nat).
Hypothesis Hq : forall e options,
  res_le (qapply L f1 e options) (qapply L f2 e options).
Hypothesis Hm : forall e options,
  res_le (qapply_Mul L f1 e options) (qapply_Mul L f2 e options).

Lemma qapply_step (e : Expr) (options : Options) :
  res_le (qapply L (S f1) e options) (qapply L (S f2) e options).
Proof. simpl. le_congruence. Qed.

Lemma qapply_Mul_step (e : Expr) (options : Options) :
  res_le (qapply_Mul L (S f1) e options) (qapply_Mul L (S f2) e options).
Proof. simpl. le_congruence. Qed.
End Step.

(** A run with a larger budget agrees with a run with a smaller one. *)
Lemma qapply_fuel_mono (f1 : nat) : forall f2, (f1 <= f2)%nat ->
  (forall e options, res_le (qapply L f1 e options) (qapply L f2 e options))
  /\ (forall e options,
        res_le (qapply_Mul L f1 e options) (qapply_Mul L f2 e options)).
Proof.
  induction f1 as [|f1 IH]; intros f2 Hle.
  - split; intros; apply res_le_Unfinished.
  - destruct f2 as [|f2]; [lia|].
    destruct (IH f2 ltac:(lia)) as [Hq Hm].
    split; intros; [apply qapply_step | apply qapply_Mul_step]; assumption.
Qed.

(** Two finished runs of [qapply] on the same arguments agree. *)
Lemma qapply_runs_agree (e : Expr) (options : Options) (fuel1 fuel2 : nat) :
  qapply L fuel1 e options <> Unfinished ->
  qapply L fuel2 e options <> Unfinished ->
  qapply L fuel1 e options = qapply L fuel2 e options.
Proof.
  intros N1 N2.
  destruct (qapply_fuel_mono fuel1 (Nat.max fuel1 fuel2) (Nat.le_max_l _ _))
    as [H1 _].
  destruct (qapply_fuel_mono fuel2 (Nat.max fuel1 fuel2) (Nat.le_max_r _ _))
    as [H2 _].
  rewrite <- (H1 e options N1). apply H2. exact N2.
Qed.

Lemma returns_mono (e : Expr) (options : Options) (v : Expr) (f1 f2 : nat) :
  (f1 <= f2)%nat -> qapply L f1 e options = Val v ->
  qapply L f2 e options = Val v.
Proof.
  intros Hle H. destruct (qapply_fuel_mono f1 f2 Hle) as [Hq _].
  eapply res_le_Val; eauto.
Qed.

(** *** Sums *)

Lemma common_budget (options : Options) (args rs : list Expr) :
  Forall2 (fun a r => returns (fun fuel => qapply L fuel a options) r) args rs ->
  exists k, Forall2 (fun a r => qapply L k a options = Val r) args rs.
Proof.
  induction 1 as [|a r args rs [k1 H1] _ [k2 IH]].
  - exists 0%nat. constructor.
  - exists (Nat.max k1 k2). constructor.
    + eapply returns_mono; [apply Nat.le_max_l | exact H1].
    + clear H1. induction IH as [|a' r' args rs Ha' _ IH']; constructor.
      * eapply returns_mono; [apply Nat.le_max_r | exact Ha'].
      * exact IH'.
Qed.

Lemma for_each_sum (k : nat) (options : Options) (args rs : list Expr) :
  Forall2 (fun a r => qapply L k a options = Val r) args rs ->
  forall acc,
    for_each args
      (fun result arg => r ← qapply L k arg options; Val (add L result r))
      acc
    = Val (fold_left (add L) rs acc).
Proof.
  induction 1 as [|a r args rs Ha _ IH]; intros acc; simpl.
  - reflexivity.
  - rewrite Ha. simpl. apply IH.
Qed.

(** C10. [qapply] is additive over sums: when the expanded form of [e] is
    [Add(a1, ..., an)], [qapply(e)] is the sum, from left to right and
    starting from [0], of the [qapply(ai)]; so when [qapply(ai)] returns
    [ri] for each [i], [qapply(e)] returns [0 + r1 + ... + rn].
    ([expand] leaves [0] alone.) *)
Theorem qapply_additive (e : Expr) (options : Options) (args rs : list Expr) :
  expand L (Integer 0) = Integer 0 ->
  expand L e = Add args ->
  (forall fuel,
      qapply L (S fuel) e options
      = for_each args
          (fun result arg => r ← qapply L fuel arg options; Val (add L result r))
          (Integer 0))
  /\ (Forall2 (fun a r => returns (fun fuel => qapply L fuel a options) r) args rs ->
      returns (fun fuel => qapply L fuel e options)
              (fold_left (add L) rs (Integer 0))).
Proof.
  intros H0 He.
  assert (Hstep : forall fuel,
      qapply L (S fuel) e options
      = for_each args
          (fun result arg => r ← qapply L fuel arg options; Val (add L result r))
          (Integer 0)).
  { intros fuel. simpl. destruct (eqb e (Integer 0)) eqn:E.
    - apply eqb_true in E. subst e. congruence.
    - rewrite He. reflexivity. }
  split; [exact Hstep|]. intros Hargs.
  destruct (common_budget options args rs Hargs) as [k Hk].
  exists (S k). rewrite Hstep. apply for_each_sum. exact Hk.
Qed.

(** *** The fallback of [qapply_Mul] *)

(** C1, amended.  When neither [lhs._apply_operator(rhs)] nor
    [rhs._apply_operator(lhs)] is implemented, [qapply_Mul] builds
    [InnerProduct(lhs, rhs)], and calls [doit] on it when [ip_doit] is
    true, if [lhs] is a bra and [rhs] a ket; for any other pair it builds
    nothing and [result] is [None]. *)
Theorem inner_product_fallback (lhs rhs : Expr) (options : Options) :
  unimplemented (_apply_operator L lhs rhs options) = true ->
  unimplemented (_apply_operator L rhs lhs options) = true ->
  apply_or_inner_product L lhs rhs options
  = if is_BraBase lhs && is_KetBase rhs then
      Val (Some (if options_get options "ip_doit" true
                 then doit L (canon L (InnerProduct lhs rhs))
                 else canon L (InnerProduct lhs rhs)))
    else Val None.
Proof.
  intros H1 H2. unfold apply_or_inner_product.
  destruct (_apply_operator L lhs rhs options) as [?|[]|]; try discriminate;
    destruct (_apply_operator L rhs lhs options) as [?|[]|]; try discriminate;
    reflexivity.
Qed.

End Facts.
(** *** The fallback on concrete pairs *)

(** C1 as stated fails: for two operators neither application is
    implemented, both factors are non-commutative, and no inner product is
    built; [qapply_Mul] returns the product unchanged. *)
Lemma no_inner_product_for_operators :
  let lhs := Operator "A" in
  let rhs := Operator "B" in
  unimplemented (_apply_operator Sample.library lhs rhs ∅) = true
  /\ unimplemented (_apply_operator Sample.library rhs lhs ∅) = true
  /\ is_commutative Sample.library lhs = false
  /\ is_commutative Sample.library rhs = false
  /\ apply_or_inner_product Sample.library lhs rhs ∅ = Val None
  /\ apply_or_inner_product Sample.library lhs rhs ∅
     <> Val (Some (doit Sample.library
                     (canon Sample.library (InnerProduct lhs rhs))))
  /\ qapply_Mul Sample.library 1 (Mul [lhs; rhs]) ∅ = Val (Mul [lhs; rhs]).
Proof. repeat split; try reflexivity. discriminate. Qed.

Lemma inner_product_fallback_witness :
  unimplemented (_apply_operator Sample.library (Bra "b") (Ket "k") ∅) = true
  /\ unimplemented (_apply_operator Sample.library (Ket "k") (Bra "b") ∅) = true
  /\ apply_or_inner_product Sample.library (Bra "b") (Ket "k") ∅
     = Val (Some (InnerProduct (Bra "b") (Ket "k"))).
Proof.
  split; [reflexivity|]. split; [reflexivity|].
  exact (inner_product_fallback Sample.library (Bra "b") (Ket "k") ∅
           eq_refl eq_refl).
Defined.

(** *** Sums of concrete products *)

Lemma qapply_additive_witness :
  let e := Add [Mul [Operator "A"; Ket "k"]; Mul [Bra "b"; Ket "j"]] in
  let args := [Mul [Operator "A"; Ket "k"]; Mul [Bra "b"; Ket "j"]] in
  let rs := [Mul [Integer 1; Ket "k"];
             Mul [InnerProduct (Bra "b") (Ket "j"); Integer 1]] in
  expand Sample.library (Integer 0) = Integer 0
  /\ expand Sample.library e = Add args
  /\ Forall2 (fun a r => returns (fun fuel => qapply Sample.library fuel a ∅) r)
             args rs
  /\ returns (fun fuel => qapply Sample.library fuel e ∅)
             (fold_left (add Sample.library) rs (Integer 0)).
Proof.
  intros e args rs.
  assert (Hargs : Forall2
            (fun a r => returns (fun fuel => qapply Sample.library fuel a ∅) r)
            args rs).
  { repeat constructor; exists 4%nat; vm_compute; reflexivity. }
  split; [reflexivity|]. split; [reflexivity|]. split; [exact Hargs|].
  exact (proj2 (qapply_additive Sample.library e ∅ args rs eq_refl eq_refl)
           Hargs).
Defined.

(** *** A product on which [qapply] does not terminate *)

(** What the loop needs from the library: an operator [A] whose application
    to the ket [|k>] is implemented and gives a ket back, two factors that
    do not commute, and constructors and [expand] that leave a negative
    power of [A] and its product with the ket as they are. *)
Section NegativePower.
Context (L : Library) (a k : string) (options : Options).
Hypothesis apply_A : _apply_operator L (Operator a) (Ket k) options = Val (Some (Ket k)).
Hypothesis ket_nc : is_commutative L (Ket k) = false.
Hypothesis pow_nc : forall p,
  is_commutative L (Pow (Operator a) (Integer (Z.neg p))) = false.
Hypothesis canon_pow : forall p,
  canon L (Pow (Operator a) (Integer (Z.neg p))) = Pow (Operator a) (Integer (Z.neg p)).
Hypothesis canon_single : forall e, canon L (Mul [e]) = e.
Hypothesis canon_product : forall p,
  canon L (Mul [Pow (Operator a) (Integer (Z.neg p)); Ket k])
  = Mul [Pow (Operator a) (Integer (Z.neg p)); Ket k].
Hypothesis expand_product : forall p,
  expand L (Mul [Pow (Operator a) (Integer (Z.neg p)); Ket k])
  = Mul [Pow (Operator a) (Integer (Z.neg p)); Ket k].

Lemma negative_power_loops : forall (fuel : nat) (p : positive),
  qapply L fuel (Mul [Pow (Operator a) (Integer (Z.neg p)); Ket k]) options
  = Unfinished
  /\ qapply_Mul L fuel (Mul [Pow (Operator a) (Integer (Z.neg p)); Ket k]) options
     = Unfinished.
Proof.
  induction fuel as [|fuel IH]; intros p; [split; reflexivity|].
  destruct (IH p) as [IHq IHm]. split.
  - simpl. rewrite expand_product, IHm. reflexivity.
  - simpl. rewrite ket_nc, pow_nc. simpl.
    unfold apply_or_inner_product. rewrite apply_A. simpl.
    unfold mul, Mul_, pow.
    change (Z.neg p - 1) with (Z.neg (p + 1)).
    rewrite canon_pow, canon_single, canon_product. apply IH.
Qed.
End NegativePower.

(** C2 fails on the code.  With an operator [A] whose application to a ket
    is implemented, [qapply(A**(-1) * |k>)] never returns: [qapply_Mul]
    splits [A**(-1)] into [A**(-2)] and [A], applies [A], and is called
    again on [A**(-2) * |k>], then on [A**(-3) * |k>], and so on, whatever
    the recursion depth allowed and whatever the options. *)
Theorem qapply_negative_power_diverges (fuel : nat) (options : Options) :
  qapply Sample.library fuel
    (Mul [Pow (Operator "A") (Integer (-1)); Ket "k"]) options = Unfinished.
Proof.
  apply (negative_power_loops Sample.library "A" "k" options);
    intros; reflexivity.
Qed.

(** A positive power is applied factor by factor and the call returns. *)
Example qapply_positive_power :
  qapply Sample.library 8 (Mul [Pow (Operator "A") (Integer 3); Ket "k"]) ∅
  = Val (Mul [Integer 1; Ket "k"]).
Proof. vm_compute. reflexivity. Qed.

End QApplyTheory.

(** * Purity *)

(** C5. The two entry points are deterministic: two runs of [qapply] on
    the same expression and options that finish do so with the same
    outcome, whatever recursion depth each was allowed; and two runs of
    [trigintegrate] on the same arguments that finish do so with the same
    outcome, whatever recursion depth each was allowed and whatever the
    earlier calls left in the memo table of [_pat_sincos], the only state
    the two files share between calls.  Every call leaves that table
    coherent, as it is when empty. *)
Theorem runs_deterministic (L : Library) :
  (forall (e : Expr) (options : Options) (fuel1 fuel2 : nat),
      QApply.qapply L fuel1 e options <> Unfinished ->
      QApply.qapply L fuel2 e options <> Unfinished ->
      QApply.qapply L fuel1 e options = QApply.qapply L fuel2 e options)
  /\ (forall (f x : Expr) (conds : string) (fuel1 fuel2 : nat)
             (c1 c2 : Trigonometry.Cache),
        Trigonometry.coherent L c1 -> Trigonometry.coherent L c2 ->
        fst (Trigonometry.trigintegrate L fuel1 f x conds c1) <> Unfinished ->
        fst (Trigonometry.trigintegrate L fuel2 f x conds c2) <> Unfinished ->
        fst (Trigonometry.trigintegrate L fuel1 f x conds c1)
        = fst (Trigonometry.trigintegrate L fuel2 f x conds c2))
  /\ Trigonometry.coherent L []
  /\ (forall (f x : Expr) (conds : string) (fuel : nat) (c : Trigonometry.Cache),
        Trigonometry.coherent L c ->
        Trigonometry.coherent L
          (snd (Trigonometry.trigintegrate L fuel f x conds c))).
Proof.
  split; [|split; [|split]].
  - intros. apply QApplyTheory.qapply_runs_agree; assumption.
  - intros. apply TrigonometryTheory.trigintegrate_runs_agree; assumption.
  - apply TrigonometryTheory.coherent_nil.
  - intros f x conds fuel c Hc.
    destruct (TrigonometryTheory.agree_fuel L fuel fuel (le_n _)) as (Ht & _).
    destruct (Ht f x conds c c Hc Hc) as (H & _). exact H.
Qed.

Lemma runs_deterministic_witness :
  let e := Mul [Operator "A"; Ket "k"] in
  let f := Pow (sin (Symbol "x")) (Integer 2) in
  let x := Symbol "x" in
  let c2 := [(x, Trigonometry._pat_sincos_body Sample.library x)] in
  QApply.qapply Sample.library 4 e ∅ <> Unfinished
  /\ QApply.qapply Sample.library 7 e ∅ <> Unfinished
  /\ QApply.qapply Sample.library 4 e ∅ = QApply.qapply Sample.library 7 e ∅
  /\ Trigonometry.coherent Sample.library []
  /\ Trigonometry.coherent Sample.library c2
  /\ fst (Trigonometry.trigintegrate Sample.library 3 f x "piecewise" [])
     <> Unfinished
  /\ fst (Trigonometry.trigintegrate Sample.library 5 f x "piecewise" c2)
     <> Unfinished
  /\ fst (Trigonometry.trigintegrate Sample.library 3 f x "piecewise" [])
     = fst (Trigonometry.trigintegrate Sample.library 5 f x "piecewise" c2).
Proof.
  intros e f x c2.
  assert (Q1 : QApply.qapply Sample.library 4 e ∅ <> Unfinished)
    by (vm_compute; discriminate).
  assert (Q2 : QApply.qapply Sample.library 7 e ∅ <> Unfinished)
    by (vm_compute; discriminate).
  assert (C1 : Trigonometry.coherent Sample.library []) by constructor.
  assert (C2 : Trigonometry.coherent Sample.library c2)
    by (repeat constructor).
  assert (T1 : fst (Trigonometry.trigintegrate Sample.library 3 f x
                      "piecewise" []) <> Unfinished)
    by (vm_compute; discriminate).
  assert (T2 : fst (Trigonometry.trigintegrate Sample.library 5 f x
                      "piecewise" c2) <> Unfinished)
    by (vm_compute; discriminate).
  repeat (split; [assumption|]).
  split.
  - exact (proj1 (runs_deterministic Sample.library) e ∅ 4%nat 7%nat Q1 Q2).
  - repeat (split; [assumption|]).
    exact (proj1 (proj2 (runs_deterministic Sample.library))
             f x "piecewise" 3%nat 5%nat [] c2 C1 C2 T1 T2).
Defined.


(** * Facts about sets.py *)

Module HandlersTheory.

(** [~(q & 1)] is never zero: it is [-1] for an even [q] and [-2] for an
    odd one. *)
Lemma lnot_land_1_nonzero (q : Z) : Z.lnot (Z.land q 1) <> 0.
Proof.
  change 1 with (Z.ones 1) at 1. rewrite Z.land_ones by lia.
  unfold Z.lnot. pose proof (Z.mod_pos_bound q (2 ^ 1) ltac:(lia)). lia.
Qed.

Section Facts.
Context (L : Library) (K : Oracle) (assumptions : Expr).

(** *** AskIntegerHandler.Mul *)

Lemma Integer_Mul_loop_integers (expr : Expr) (pre rest : list Expr) (out : bool) :
  Forall (fun a => known K assumptions Q_integer a = true) pre ->
  AskIntegerHandler.Mul_loop L K expr assumptions (pre ++ rest) out
  = AskIntegerHandler.Mul_loop L K expr assumptions rest out.
Proof.
  induction 1 as [|a pre Ha _ IH]; simpl; [reflexivity|].
  unfold known in Ha. rewrite Ha. simpl. exact IH.
Qed.

(** The first factor not known to be an integer decides the answer when
    it is a [Rational]: [ask(Q.even(2*expr))] for the denominator 2 and
    [None] for every other denominator, odd or even. *)
Theorem Integer_Mul_rational_factor (expr : Expr) (pre post : list Expr)
    (arg : Expr) (q : Z) :
  is_number K expr = false ->
  args_of expr = pre ++ arg :: post ->
  Forall (fun a => known K assumptions Q_integer a = true) pre ->
  known K assumptions Q_integer arg = false ->
  rational_q arg = Some q ->
  AskIntegerHandler.Mul L K expr assumptions
  = if q =? 2 then ask K (Applied Q_even (mul L (Integer 2) expr)) assumptions
    else None.
Proof.
  intros Hn Hargs Hpre Harg Hq. unfold AskIntegerHandler.Mul.
  rewrite Hn, Hargs, Integer_Mul_loop_integers by exact Hpre.
  simpl. unfold known in Harg. rewrite Harg, Hq. simpl.
  destruct (q =? 2); [reflexivity|].
  destruct (Z.eqb_spec (Z.lnot (Z.land q 1)) 0) as [E|_]; [|reflexivity].
  exfalso. exact (lnot_land_1_nonzero q E).
Qed.

Lemma Integer_Mul_loop_count (expr : Expr) (args : list Expr) :
  Forall (fun a => known K assumptions Q_integer a = true
                   \/ (rational_q a = None
                       /\ known K assumptions Q_irrational a = true)) args ->
  forall out,
    AskIntegerHandler.Mul_loop L K expr assumptions args out
    = match count_if (fun a => negb (known K assumptions Q_integer a)) args with
      | O => Some out
      | S O => if out then Some false else None
      | _ => None
      end.
Proof.
  induction 1 as [|a args Ha _ IH]; intros out; simpl; [reflexivity|].
  fold (known K assumptions Q_integer a).
  destruct (known K assumptions Q_integer a) eqn:Hint; simpl.
  - apply IH.
  - destruct Ha as [Ha|[Hq Hirr]]; [discriminate|].
    rewrite Hq. fold (known K assumptions Q_irrational a). rewrite Hirr.
    destruct out.
    + rewrite IH. destruct (count_if _ args) as [|[|n]]; reflexivity.
    + destruct (count_if _ args) as [|[|n]]; reflexivity.
Qed.

(** Integer*Integer -> Integer, Integer*Irrational -> !Integer: a product
    whose factors are known integers or known irrationals is an integer
    when no factor is irrational, is not an integer when exactly one is,
    and is undecided when two or more are. *)
Theorem Integer_Mul_integers_and_irrationals (expr : Expr) :
  is_number K expr = false ->
  Forall (fun a => known K assumptions Q_integer a = true
                   \/ (rational_q a = None
                       /\ known K assumptions Q_irrational a = true))
         (args_of expr) ->
  AskIntegerHandler.Mul L K expr assumptions
  = match count_if (fun a => negb (known K assumptions Q_integer a))
                   (args_of expr) with
    | O => Some true
    | S O => Some false
    | _ => None
    end.
Proof.
  intros Hn Hargs. unfold AskIntegerHandler.Mul. rewrite Hn.
  rewrite Integer_Mul_loop_count by exact Hargs. reflexivity.
Qed.



(** *** AskRealHandler.Mul and AskImaginaryHandler.Mul *)

Lemma Real_Mul_loop_spec (args : list Expr) : forall result,
  AskRealHandler.Mul_loop K assumptions args result
  = if forallb (fun a => known K assumptions Q_real a
                         || known K assumptions Q_imaginary a) args
    then Some (xorb result
                 (Nat.odd (count_if (fun a => negb (known K assumptions Q_real a))
                                    args)))
    else None.
Proof.
  induction args as [|a args IH]; intros result; simpl.
  - destruct result; reflexivity.
  - fold (known K assumptions Q_real a) (known K assumptions Q_imaginary a).
    destruct (known K assumptions Q_real a); simpl; [apply IH|].
    destruct (known K assumptions Q_imaginary a); simpl; [|reflexivity].
    rewrite IH. destruct (forallb _ args); [|reflexivity].
    rewrite Nat.odd_succ, <- Nat.negb_odd. f_equal.
    destruct result, (Nat.odd _); reflexivity.
Qed.

(** Real*Real -> Real, Real*Imaginary -> !Real, Imaginary*Imaginary ->
    Real: the product is answered exactly when every factor is known to
    be real or imaginary, and it is real when the number of factors not
    known to be real is even. *)
Theorem Real_Mul_parity (expr : Expr) :
  is_number K expr = false ->
  AskRealHandler.Mul K expr assumptions
  = if forallb (fun a => known K assumptions Q_real a
                         || known K assumptions Q_imaginary a) (args_of expr)
    then Some (Nat.even (count_if (fun a => negb (known K assumptions Q_real a))
                                  (args_of expr)))
    else None.
Proof.
  intros Hn. unfold AskRealHandler.Mul. rewrite Hn, Real_Mul_loop_spec.
  destruct (forallb _ _); [|reflexivity].
  rewrite <- Nat.negb_odd. reflexivity.
Qed.

Lemma Imaginary_Mul_loop_spec (len : Z) (args : list Expr) : forall result,
  AskImaginaryHandler.Mul_loop K assumptions len args result 0
  = if forallb (fun a => known K assumptions Q_imaginary a
                         || known K assumptions Q_real a) args
    then if 0 =? len then Some false
         else Some (xorb result
                      (Nat.odd (count_if (known K assumptions Q_imaginary) args)))
    else None.
Proof.
  set (empty := 0 =? len).
  induction args as [|a args IH]; intros result; simpl; fold empty.
  - destruct result; reflexivity.
  - fold (known K assumptions Q_real a) (known K assumptions Q_imaginary a).
    destruct (known K assumptions Q_imaginary a); simpl.
    + rewrite IH. destruct (forallb _ args); [|reflexivity].
      destruct empty; [reflexivity|].
      rewrite Nat.odd_succ, <- Nat.negb_odd. f_equal.
      destruct result, (Nat.odd _); reflexivity.
    + destruct (known K assumptions Q_real a); simpl; [apply IH|reflexivity].
Qed.

(** Real*Imaginary -> Imaginary, Imaginary*Imaginary -> Real: the product
    is answered exactly when every factor is known to be imaginary or
    real, and it is imaginary when the number of factors known to be
    imaginary is odd.  The counter [reals], which the loop never
    increases, changes nothing: it equals the number of factors only for
    the empty product, which is answered [False] either way. *)
Theorem Imaginary_Mul_parity (expr : Expr) :
  is_number K expr = false ->
  AskImaginaryHandler.Mul K expr assumptions
  = if forallb (fun a => known K assumptions Q_imaginary a
                         || known K assumptions Q_real a) (args_of expr)
    then Some (Nat.odd (count_if (known K assumptions Q_imaginary) (args_of expr)))
    else None.
Proof.
  intros Hn. unfold AskImaginaryHandler.Mul. rewrite Hn, Imaginary_Mul_loop_spec.
  destruct (forallb _ _) eqn:E; [|reflexivity].
  destruct (args_of expr) as [|a args]; [reflexivity|].
  replace (0 =? Z.of_nat (length (a :: args))) with false
    by (symmetry; apply Z.eqb_neq; simpl length; lia).
  reflexivity.
Qed.

Lemma exclusive_factors (args : list Expr) :
  Forall (fun a => known K assumptions Q_real a
                   && known K assumptions Q_imaginary a = false) args ->
  forallb (fun a => known K assumptions Q_imaginary a
                    || known K assumptions Q_real a) args
  = forallb (fun a => known K assumptions Q_real a
                      || known K assumptions Q_imaginary a) args
  /\ (forallb (fun a => known K assumptions Q_real a
                        || known K assumptions Q_imaginary a) args = true ->
      count_if (known K assumptions Q_imaginary) args
      = count_if (fun a => negb (known K assumptions Q_real a)) args).
Proof.
  induction 1 as [|a args Ha _ [IH1 IH2]]; simpl; [split; reflexivity|].
  rewrite IH1.
  destruct (known K assumptions Q_real a),
           (known K assumptions Q_imaginary a); simpl in *;
    try discriminate; split; try reflexivity; intros H;
    try discriminate; rewrite IH2 by exact H; reflexivity.
Qed.

(** When no factor is known to be both real and imaginary, the two
    handlers answer a product in opposite ways: real exactly when not
    imaginary, and undecided together. *)
Theorem Real_Imaginary_Mul_opposite (expr : Expr) :
  is_number K expr = false ->
  Forall (fun a => known K assumptions Q_real a
                   && known K assumptions Q_imaginary a = false)
         (args_of expr) ->
  AskImaginaryHandler.Mul K expr assumptions
  = option_map negb (AskRealHandler.Mul K expr assumptions).
Proof.
  intros Hn Hex. rewrite Real_Mul_parity, Imaginary_Mul_parity by exact Hn.
  destruct (exclusive_factors _ Hex) as [E1 E2]. rewrite E1. clear E1.
  destruct (forallb _ (args_of expr)); [|reflexivity]. simpl.
  rewrite E2 by reflexivity. rewrite Nat.negb_even. reflexivity.
Qed.

(** *** AskImaginaryHandler.Add *)

Lemma Imaginary_Add_loop_spec (len : Z) (args : list Expr) : forall reals,
  AskImaginaryHandler.Add_loop K assumptions len args reals
  = if forallb (fun a => known K assumptions Q_imaginary a
                         || known K assumptions Q_real a) args
    then
      let reals := reals + Z.of_nat
        (count_if (fun a => negb (known K assumptions Q_imaginary a)) args) in
      if reals =? 0 then Some true
      else if (reals =? 1) || (len =? reals) then Some false
      else None
    else None.
Proof.
  induction args as [|a args IH]; intros reals.
  - simpl forallb. simpl count_if. cbv zeta.
    replace (reals + Z.of_nat 0) with reals by lia. reflexivity.
  - simpl AskImaginaryHandler.Add_loop. simpl forallb. simpl count_if.
    fold (known K assumptions Q_real a) (known K assumptions Q_imaginary a).
    destruct (known K assumptions Q_imaginary a); simpl negb; cbv iota.
    + rewrite IH. simpl orb. cbv iota. rewrite Nat.add_0_l. reflexivity.
    + destruct (known K assumptions Q_real a); simpl orb; cbv iota;
        [|reflexivity].
      rewrite IH. destruct (forallb _ args); [|reflexivity]. cbv zeta.
      replace (reals + 1 + Z.of_nat (count_if _ args))
        with (reals + Z.of_nat (1 + count_if
                (fun a => negb (known K assumptions Q_imaginary a)) args))
        by lia.
      reflexivity.
Qed.

(** Imaginary + Imaginary -> Imaginary, Imaginary + Real -> !Imaginary:
    the sum is answered only when every term is known to be imaginary or
    real; it is imaginary when no term is real, not imaginary when
    exactly one term is real or all are, and undecided otherwise (two
    reals could sum to 0). *)
Theorem Imaginary_Add_reals (expr : Expr) :
  is_number K expr = false ->
  AskImaginaryHandler.Add K expr assumptions
  = if forallb (fun a => known K assumptions Q_imaginary a
                         || known K assumptions Q_real a) (args_of expr)
    then
      let reals :=
        count_if (fun a => negb (known K assumptions Q_imaginary a))
                 (args_of expr) in
      if (reals =? 0)%nat then Some true
      else if (reals =? 1)%nat || (length (args_of expr) =? reals)%nat
      then Some false
      else None
    else None.
Proof.
  intros Hn. unfold AskImaginaryHandler.Add.
  rewrite Hn, Imaginary_Add_loop_spec.
  destruct (forallb _ _); [|reflexivity]. cbv zeta.
  set (n := count_if _ _). set (len := length _).
  replace (0 + Z.of_nat n =? 0) with (n =? 0)%nat
    by (destruct (Nat.eqb_spec n 0), (Z.eqb_spec (0 + Z.of_nat n) 0);
        try reflexivity; lia).
  replace (0 + Z.of_nat n =? 1) with (n =? 1)%nat
    by (destruct (Nat.eqb_spec n 1), (Z.eqb_spec (0 + Z.of_nat n) 1);
        try reflexivity; lia).
  replace (Z.of_nat len =? 0 + Z.of_nat n) with (len =? n)%nat
    by (destruct (Nat.eqb_spec len n),
          (Z.eqb_spec (Z.of_nat len) (0 + Z.of_nat n)); try reflexivity; lia).
  reflexivity.
Qed.

(** *** AskHermitianHandler.Mul and AskAntiHermitianHandler.Mul *)

Lemma Hermitian_Mul_loop_spec (args : list Expr) : forall nccount result,
  0 <= nccount <= 1 ->
  AskHermitianHandler.Mul_loop K assumptions args nccount result
  = if forallb (fun a => known K assumptions Q_antihermitian a
                         || known K assumptions Q_hermitian a) args
       && (nccount + Z.of_nat (count_if (noncommutative K assumptions) args) <=? 1)
    then Some (xorb result
                 (Nat.odd (count_if (known K assumptions Q_antihermitian) args)))
    else None.
Proof.
  induction args as [|a args IH]; intros nccount result Hn.
  - simpl. destruct (Z.leb_spec (nccount + Z.of_nat 0) 1); [|lia].
    destruct result; reflexivity.
  - simpl AskHermitianHandler.Mul_loop. simpl forallb. simpl count_if.
    fold (known K assumptions Q_antihermitian a)
         (known K assumptions Q_hermitian a) (noncommutative K assumptions a).
    set (F := forallb _ args) in *.
    set (C := count_if (noncommutative K assumptions) args) in *.
    set (A := count_if (known K assumptions Q_antihermitian) args) in *.
    destruct (known K assumptions Q_antihermitian a),
             (known K assumptions Q_hermitian a),
             (noncommutative K assumptions a); simpl orb; simpl negb;
      cbv iota; rewrite ?Nat.add_0_l; try reflexivity;
      try (destruct (Z.gtb_spec (nccount + 1) 1));
      try rewrite IH by lia; fold F C A;
      destruct F; simpl andb; try reflexivity;
      repeat match goal with
        | |- context [Z.leb ?x ?y] => destruct (Z.leb_spec x y)
        end; try lia; try reflexivity;
      change (1 + A)%nat with (S A); rewrite ?Nat.odd_succ, <- ?Nat.negb_odd;
      destruct result, (Nat.odd A); reflexivity.
Qed.

Lemma AntiHermitian_Mul_loop_same (args : list Expr) : forall nccount result,
  AskAntiHermitianHandler.Mul_loop K assumptions args nccount result
  = AskHermitianHandler.Mul_loop K assumptions args nccount result.
Proof.
  induction args as [|a args IH]; intros nccount result; simpl;
    [reflexivity|].
  rewrite !IH. reflexivity.
Qed.

(** Hermitian*Hermitian -> Hermitian, Hermitian*Antihermitian ->
    !Hermitian, as long as there is at most one noncommutative term: the
    product is answered exactly when every factor is known to be
    antihermitian or hermitian and at most one factor is known not to
    commute; it is hermitian when the number of antihermitian factors is
    even. *)
Theorem Hermitian_Mul_parity (expr : Expr) :
  is_number K expr = false ->
  AskHermitianHandler.Mul K expr assumptions
  = if forallb (fun a => known K assumptions Q_antihermitian a
                         || known K assumptions Q_hermitian a) (args_of expr)
       && (count_if (noncommutative K assumptions) (args_of expr) <=? 1)%nat
    then Some (Nat.even (count_if (known K assumptions Q_antihermitian)
                                  (args_of expr)))
    else None.
Proof.
  intros Hn. unfold AskHermitianHandler.Mul.
  rewrite Hn, Hermitian_Mul_loop_spec by lia.
  set (n := count_if (noncommutative K assumptions) _).
  replace (0 + Z.of_nat n <=? 1) with (n <=? 1)%nat
    by (destruct (Nat.leb_spec n 1), (Z.leb_spec (0 + Z.of_nat n) 1);
        try reflexivity; lia).
  destruct (_ && _); [|reflexivity].
  rewrite <- Nat.negb_odd. reflexivity.
Qed.

(** The two handlers run the same loop from opposite starting values, so
    on every product that is not a number the antihermitian answer is the
    negation of the hermitian one, and both are undecided together. *)
Theorem Hermitian_AntiHermitian_Mul_opposite (expr : Expr) :
  is_number K expr = false ->
  AskAntiHermitianHandler.Mul K expr assumptions
  = option_map negb (AskHermitianHandler.Mul K expr assumptions).
Proof.
  intros Hn. unfold AskAntiHermitianHandler.Mul, AskHermitianHandler.Mul.
  rewrite Hn, AntiHermitian_Mul_loop_same, !Hermitian_Mul_loop_spec by lia.
  destruct (_ && _); [|reflexivity]. simpl.
  destruct (Nat.odd _); reflexivity.
Qed.

(** *** AskRealHandler.Pow and AskImaginaryHandler.Pow *)

(** A power that is not a number is never reported both real and
    imaginary, provided the base is not known to be both positive and
    negative. *)
Theorem Real_Imaginary_Pow_exclusive (expr : Expr) :
  is_number K expr = false ->
  (forall base exp, base_exp expr = Some (base, exp) ->
     known K assumptions Q_positive base
     && known K assumptions Q_negative base = false) ->
  AskRealHandler.Pow K expr assumptions = Val (Some true) ->
  AskImaginaryHandler.Pow K expr assumptions <> Val (Some true).
Proof.
  intros Hn Hex. unfold AskRealHandler.Pow, AskImaginaryHandler.Pow.
  rewrite Hn. destruct (base_exp expr) as [[base exp]|]; [|discriminate].
  specialize (Hex base exp eq_refl). unfold known in Hex.
  destruct (truthy (ask K (Applied Q_imaginary base) assumptions)).
  - destruct (truthy (ask K (Applied Q_real exp) assumptions));
      [|discriminate].
    destruct (truthy (ask K (Applied Q_odd exp) assumptions));
      [discriminate|].
    destruct (truthy (ask K (Applied Q_even exp) assumptions)); discriminate.
  - destruct (truthy (ask K (Applied Q_real base) assumptions));
      [|discriminate].
    destruct (truthy (ask K (Applied Q_real exp) assumptions));
      [|discriminate].
    destruct (match rational_q exp with Some _ => _ | None => _ end).
    + intros [= Hp] [= Hq]. rewrite Hp, Hq in Hex. discriminate.
    + destruct (truthy (ask K (Applied Q_integer exp) assumptions));
        [discriminate|].
      destruct (truthy (ask K (Applied Q_positive base) assumptions));
        [discriminate|].
      destruct (truthy (ask K (Applied Q_negative base) assumptions));
        discriminate.
Qed.

End Facts.
(** *** The handlers on concrete products *)

Lemma Integer_Mul_rational_factor_witness :
  let expr := Mul [Integer 3; Rational 1 3; Symbol "x"] in
  is_number SampleOracle.oracle expr = false
  /\ args_of expr = [Integer 3] ++ Rational 1 3 :: [Symbol "x"]
  /\ Forall (fun a => known SampleOracle.oracle BooleanTrue Q_integer a = true) [Integer 3]
  /\ known SampleOracle.oracle BooleanTrue Q_integer (Rational 1 3) = false
  /\ rational_q (Rational 1 3) = Some 3
  /\ AskIntegerHandler.Mul Sample.library SampleOracle.oracle expr BooleanTrue = None.
Proof.
  intros expr.
  assert (H : Forall (fun a => known SampleOracle.oracle BooleanTrue Q_integer a = true)
                [Integer 3]) by (repeat constructor).
  repeat (split; [first [reflexivity | exact H]|]).
  exact (Integer_Mul_rational_factor Sample.library SampleOracle.oracle BooleanTrue expr [Integer 3]
           [Symbol "x"] (Rational 1 3) 3 eq_refl eq_refl H eq_refl eq_refl).
Defined.

Lemma Integer_Mul_integers_and_irrationals_witness :
  let expr := Mul [Integer 2; Symbol "sqrt2"] in
  is_number SampleOracle.oracle expr = false
  /\ Forall (fun a => known SampleOracle.oracle BooleanTrue Q_integer a = true
                      \/ (rational_q a = None
                          /\ known SampleOracle.oracle BooleanTrue Q_irrational a = true))
            (args_of expr)
  /\ AskIntegerHandler.Mul Sample.library SampleOracle.oracle expr BooleanTrue = Some false.
Proof.
  intros expr.
  assert (H : Forall (fun a => known SampleOracle.oracle BooleanTrue Q_integer a = true
                      \/ (rational_q a = None
                          /\ known SampleOracle.oracle BooleanTrue Q_irrational a = true))
            (args_of expr)).
  { constructor; [left; reflexivity|].
    constructor; [right; split; reflexivity|constructor]. }
  split; [reflexivity|]. split; [exact H|].
  exact (Integer_Mul_integers_and_irrationals Sample.library SampleOracle.oracle BooleanTrue expr eq_refl H).
Defined.


Lemma Real_Mul_parity_witness :
  let expr := Mul [Symbol "I"; Integer 2; Symbol "I"] in
  is_number SampleOracle.oracle expr = false
  /\ AskRealHandler.Mul SampleOracle.oracle expr BooleanTrue = Some true.
Proof.
  intros expr. split; [reflexivity|].
  exact (Real_Mul_parity SampleOracle.oracle BooleanTrue expr eq_refl).
Defined.

Lemma Imaginary_Mul_parity_witness :
  let expr := Mul [Symbol "I"; Integer 2] in
  is_number SampleOracle.oracle expr = false
  /\ AskImaginaryHandler.Mul SampleOracle.oracle expr BooleanTrue = Some true.
Proof.
  intros expr. split; [reflexivity|].
  exact (Imaginary_Mul_parity SampleOracle.oracle BooleanTrue expr eq_refl).
Defined.

Lemma Real_Imaginary_Mul_opposite_witness :
  let expr := Mul [Symbol "I"; Integer 2] in
  is_number SampleOracle.oracle expr = false
  /\ Forall (fun a => known SampleOracle.oracle BooleanTrue Q_real a
                      && known SampleOracle.oracle BooleanTrue Q_imaginary a = false)
            (args_of expr)
  /\ AskImaginaryHandler.Mul SampleOracle.oracle expr BooleanTrue
     = option_map negb (AskRealHandler.Mul SampleOracle.oracle expr BooleanTrue).
Proof.
  intros expr.
  assert (H : Forall (fun a => known SampleOracle.oracle BooleanTrue Q_real a
                      && known SampleOracle.oracle BooleanTrue Q_imaginary a = false)
            (args_of expr)) by (repeat constructor).
  split; [reflexivity|]. split; [exact H|].
  exact (Real_Imaginary_Mul_opposite SampleOracle.oracle BooleanTrue expr eq_refl H).
Defined.

Lemma Imaginary_Add_reals_witness :
  let expr := Add [Symbol "I"; Integer 1] in
  is_number SampleOracle.oracle expr = false
  /\ AskImaginaryHandler.Add SampleOracle.oracle expr BooleanTrue = Some false.
Proof.
  intros expr. split; [reflexivity|].
  exact (Imaginary_Add_reals SampleOracle.oracle BooleanTrue expr eq_refl).
Defined.

Lemma Hermitian_Mul_parity_witness :
  let expr := Mul [Integer 2; Symbol "I"; Operator "A"] in
  is_number SampleOracle.oracle expr = false
  /\ AskHermitianHandler.Mul SampleOracle.oracle expr BooleanTrue = Some false.
Proof.
  intros expr. split; [reflexivity|].
  exact (Hermitian_Mul_parity SampleOracle.oracle BooleanTrue expr eq_refl).
Defined.

Lemma Hermitian_AntiHermitian_Mul_opposite_witness :
  let expr := Mul [Integer 2; Symbol "I"; Operator "A"] in
  is_number SampleOracle.oracle expr = false
  /\ AskAntiHermitianHandler.Mul SampleOracle.oracle expr BooleanTrue = Some true.
Proof.
  intros expr. split; [reflexivity|].
  exact (Hermitian_AntiHermitian_Mul_opposite SampleOracle.oracle BooleanTrue expr eq_refl).
Defined.

Lemma Real_Imaginary_Pow_exclusive_witness :
  let expr := Pow (Integer (-2)) (Integer 3) in
  is_number SampleOracle.oracle expr = false
  /\ (forall base exp, base_exp expr = Some (base, exp) ->
        known SampleOracle.oracle BooleanTrue Q_positive base
        && known SampleOracle.oracle BooleanTrue Q_negative base = false)
  /\ AskRealHandler.Pow SampleOracle.oracle expr BooleanTrue = Val (Some true)
  /\ AskImaginaryHandler.Pow SampleOracle.oracle expr BooleanTrue <> Val (Some true).
Proof.
  intros expr.
  assert (H : forall base exp, base_exp expr = Some (base, exp) ->
        known SampleOracle.oracle BooleanTrue Q_positive base
        && known SampleOracle.oracle BooleanTrue Q_negative base = false)
    by (intros base exp [= <- <-]; reflexivity).
  split; [reflexivity|]. split; [exact H|]. split; [reflexivity|].
  exact (Real_Imaginary_Pow_exclusive SampleOracle.oracle BooleanTrue expr eq_refl H eq_refl).
Defined.


End HandlersTheory.

(** * Further facts about trigonometry.py *)

Module TrigonometryExtra.
Import Trigonometry Runs.

Section Facts.
Context (L : Library).

(** *** The memo table *)

Lemma eqb_refl (a : Expr) : eqb a a = true.
Proof. apply eqb_true. reflexivity. Qed.

(** After one call of [_pat_sincos(x)] the pattern is in the table, and a
    second call returns the very same pattern without touching the
    table, whatever the table held before. *)
Theorem _pat_sincos_memo (x : Expr) (c : Cache) :
  exists (p : Pattern) (c' : Cache),
    _pat_sincos L x c = (Val p, c')
    /\ cache_lookup x c' = Some p
    /\ _pat_sincos L x c' = (Val p, c').
Proof.
  unfold _pat_sincos. destruct (cache_lookup x c) as [p|] eqn:E.
  - exists p, c. rewrite E. auto.
  - exists (_pat_sincos_body L x), ((x, _pat_sincos_body L x) :: c).
    simpl. rewrite eqb_refl. auto.
Qed.

Lemma keeps_ret {A} (a : A) : keeps (ret a).
Proof. intros c k p H. exact H. Qed.

Lemma keeps_raise {A} (e : exn) : keeps (@raise A e).
Proof. intros c k p H. exact H. Qed.

Lemma keeps_unfinished {A} : keeps (@unfinished A).
Proof. intros c k p H. exact H. Qed.

Lemma keeps_bind {A B} (m : Cached A) (k : A -> Cached B) :
  keeps m -> (forall a, keeps (k a)) -> keeps (bind m k).
Proof.
  intros Hm Hk c key p H. unfold bind.
  specialize (Hm c key p H). destruct (m c) as [[a|e|] c']; simpl in *; auto.
  apply Hk. exact Hm.
Qed.

Lemma keeps_for_each {A B} (l : list B) (body : A -> B -> Cached A) :
  (forall acc i, keeps (body acc i)) -> forall acc, keeps (for_each l body acc).
Proof.
  intros Hb. induction l as [|i l IH]; intros acc; simpl.
  - apply keeps_ret.
  - apply keeps_bind; [apply Hb | exact IH].
Qed.

Lemma keeps_pat_sincos (x : Expr) : keeps (_pat_sincos L x).
Proof.
  intros c k p H. unfold _pat_sincos.
  destruct (cache_lookup x c) as [q|] eqn:E; simpl; [exact H|].
  destruct (eqb x k) eqn:Ek; [|exact H].
  apply eqb_true in Ek. subst k. congruence.
Qed.

Lemma keeps_mul_result (q : Expr) (r : option Expr) : keeps (mul_result L q r).
Proof. destruct r; [apply keeps_ret | apply keeps_raise]. Qed.

Lemma keeps_subs_result (r : option Expr) (old new : Expr) :
  keeps (subs_result L r old new).
Proof. destruct r; [apply keeps_ret | apply keeps_raise]. Qed.

Ltac keeps_congruence :=
  repeat first
    [ apply keeps_ret
    | apply keeps_raise
    | apply keeps_unfinished
    | apply keeps_pat_sincos
    | apply keeps_mul_result
    | apply keeps_subs_result
    | match goal with H : forall _ , _ |- _ => apply H end
    | apply keeps_bind; [|intros ?]
    | apply keeps_for_each; intros ? ?
    | match goal with
      | |- keeps (if ?b then _ else _) => destruct b
      | |- keeps (match ?x with _ => _ end) => destruct x
      end ].

Lemma keeps_fuel (fuel : nat) :
  (forall f x conds, keeps (trigintegrate L fuel f x conds))
  /\ (forall n x, keeps (_sin_pow_integrate L fuel n x))
  /\ (forall n x, keeps (_cos_pow_integrate L fuel n x)).
Proof.
  induction fuel as [|fuel (Ht & Hs & Hc)].
  - split; [|split]; intros; apply keeps_unfinished.
  - split; [|split]; intros; simpl; keeps_congruence.
Qed.

Lemma bind_same_start {A B} (m : Cached A) (k : A -> Cached B)
    (c c1 : Cache) (a : A) :
  m c = (Val a, c1) -> m c1 = (Val a, c1) -> bind m k c = bind m k c1.
Proof. intros H H1. unfold bind. rewrite H, H1. reflexivity. Qed.

(** The memo table only grows: a call of [trigintegrate] keeps every
    entry the table had, and once it has run (with any budget but zero)
    the table has an entry for [x]. *)
Theorem trigintegrate_table_grows (fuel : nat) (f x : Expr) (conds : string)
    (c : Cache) :
  (forall k p, cache_lookup k c = Some p ->
     cache_lookup k (snd (trigintegrate L fuel f x conds c)) = Some p)
  /\ (fuel <> 0%nat ->
      cache_lookup x (snd (trigintegrate L fuel f x conds c)) <> None).
Proof.
  split.
  - intros k p. apply (proj1 (keeps_fuel fuel)).
  - destruct fuel as [|fuel]; [congruence|]. intros _.
    destruct (_pat_sincos_memo x c) as (p & c1 & E & Hx & E1).
    assert (Hsame : trigintegrate L (S fuel) f x conds c
                    = trigintegrate L (S fuel) f x conds c1).
    { simpl. apply bind_same_start with p; assumption. }
    rewrite Hsame.
    rewrite (proj1 (keeps_fuel (S fuel)) f x conds c1 x p Hx). discriminate.
Qed.

(** *** Results with [conds] other than ['piecewise'] *)

Ltac invert_run :=
  repeat match goal with
    | H : fst (bind _ _ _) = Val _ |- _ =>
        apply TrigonometryTheory.bind_Val_inv in H;
        destruct H as (? & ? & _ & H)
    | H : fst ((if ?b then _ else _) _) = Val _ |- _ => destruct b
    | H : fst ((let (_, _) := ?p in _) _) = Val _ |- _ => destruct p
    | H : fst (ret _ _) = Val _ |- _ => simpl in H
    end.

(** With any [conds] other than ['piecewise'], a result of [trigintegrate]
    other than [None] comes from a match; it is the bare [x] when both
    matched exponents are zero, and otherwise a quotient [q / a] by the
    matched coefficient, with no guard for [a = 0]. *)
Theorem trigintegrate_quotient_shape (fuel : nat) (f x : Expr) (conds : string)
    (c : Cache) (r : Expr) :
  coherent L c ->
  String.eqb conds "piecewise" = false ->
  fst (trigintegrate L fuel f x conds c) = Val (Some r) ->
  exists M : Match,
    match_ L (rewrite_sincos L f) (_pat_sincos_body L x) = Some M
    /\ if (M_n M =? 0) && (M_m M =? 0) then r = x
       else exists q : Expr, r = div L q (M_a M).
Proof.
  intros Hc Hconds H. destruct fuel as [|fuel]; [discriminate|].
  simpl in H. unfold bind at 1 in H.
  destruct (TrigonometryTheory._pat_sincos_run L x c Hc) as (c' & E & _).
  rewrite E in H. rewrite Hconds in H.
  destruct (match_ L (rewrite_sincos L f) (_pat_sincos_body L x))
    as [M|] eqn:HM; [|discriminate].
  exists M. split; [reflexivity|].
  destruct ((M_n M =? 0) && (M_m M =? 0)).
  - simpl in H. congruence.
  - invert_run; try discriminate; injection H as <-; eexists; reflexivity.
Qed.

(** *** Even exponents *)

Lemma even_step (n : Z) : Z.even n = true -> n <> 0 -> 2 <= Z.abs n.
Proof.
  intros He Hn. destruct (Z.even_spec n) as [H _]. destruct (H He) as [k ->].
  lia.
Qed.

Lemma even_shift (n d : Z) : Z.even n = true -> Z.even d = true ->
  Z.even (n + d) = true.
Proof. intros Hn Hd. rewrite Z.even_add, Hn, Hd. reflexivity. Qed.

Lemma sin_pow_even (x : Expr) : forall (k : nat) (n : Z),
  Z.even n = true -> Z.abs n / 2 < Z.of_nat k ->
  exists r, forall fuel c, (k <= fuel)%nat ->
    _sin_pow_integrate L fuel n x c = (Val (Some r), c).
Proof.
  induction k as [|k IH]; intros n He Hk.
  - pose proof (Z.div_pos (Z.abs n) 2 (Z.abs_nonneg n) ltac:(lia)). lia.
  - destruct (Z.eq_dec n 0) as [->|Hn0].
    + eexists. intros [|fuel] c Hf; [lia|]. reflexivity.
    + pose proof (even_step n He Hn0) as H2.
      pose proof (TrigonometryTheory.abs_half_step n H2) as Hh.
      destruct (Z.gtb_spec n 0) as [Hpos|Hneg].
      * destruct (IH (n - 2)) as [r Hr];
          [apply even_shift with (d := -2); [exact He|reflexivity]| |].
        { replace (Z.abs (n - 2)) with (Z.abs n - 2) by lia. lia. }
        eexists. intros [|fuel] c Hf; [lia|]. simpl.
        destruct (Z.gtb_spec n 0); [|lia].
        destruct (Z.eqb_spec n 1); [subst; discriminate|].
        unfold bind. rewrite Hr by lia. simpl. reflexivity.
      * destruct (IH (n + 2)) as [r Hr];
          [apply even_shift; [exact He|reflexivity]| |].
        { replace (Z.abs (n + 2)) with (Z.abs n - 2) by lia. lia. }
        eexists. intros [|fuel] c Hf; [lia|]. simpl.
        destruct (Z.gtb_spec n 0); [lia|].
        destruct (Z.ltb_spec n 0); [|lia].
        destruct (Z.eqb_spec n (-1)); [subst; discriminate|].
        unfold bind. rewrite Hr by lia. simpl. reflexivity.
Qed.

Lemma cos_pow_even (x : Expr) : forall (k : nat) (n : Z),
  Z.even n = true -> Z.abs n / 2 < Z.of_nat k ->
  exists r, forall fuel c, (k <= fuel)%nat ->
    _cos_pow_integrate L fuel n x c = (Val (Some r), c).
Proof.
  induction k as [|k IH]; intros n He Hk.
  - pose proof (Z.div_pos (Z.abs n) 2 (Z.abs_nonneg n) ltac:(lia)). lia.
  - destruct (Z.eq_dec n 0) as [->|Hn0].
    + eexists. intros [|fuel] c Hf; [lia|]. reflexivity.
    + pose proof (even_step n He Hn0) as H2.
      pose proof (TrigonometryTheory.abs_half_step n H2) as Hh.
      destruct (Z.gtb_spec n 0) as [Hpos|Hneg].
      * destruct (IH (n - 2)) as [r Hr];
          [apply even_shift with (d := -2); [exact He|reflexivity]| |].
        { replace (Z.abs (n - 2)) with (Z.abs n - 2) by lia. lia. }
        eexists. intros [|fuel] c Hf; [lia|]. simpl.
        destruct (Z.gtb_spec n 0); [|lia].
        destruct (Z.eqb_spec n 1); [subst; discriminate|].
        unfold bind. rewrite Hr by lia. simpl. reflexivity.
      * destruct (IH (n + 2)) as [r Hr];
          [apply even_shift; [exact He|reflexivity]| |].
        { replace (Z.abs (n + 2)) with (Z.abs n - 2) by lia. lia. }
        eexists. intros [|fuel] c Hf; [lia|]. simpl.
        destruct (Z.gtb_spec n 0); [lia|].
        destruct (Z.ltb_spec n 0); [|lia].
        destruct (Z.eqb_spec n (-1)); [subst; discriminate|].
        unfold bind. rewrite Hr by lia. simpl. reflexivity.
Qed.

(** For an even exponent, negative or not, the two power integrators
    return an expression after at most [|n|/2 + 1] nested calls, whatever
    the library: the recursion moves by two and stops at [n = 0], so the
    call of [trigintegrate] at [n = -1] is never reached and the memo
    table is left as it was. *)
Theorem pow_integrate_even (x : Expr) (n : Z) :
  Z.even n = true ->
  exists rs rc : Expr,
    forall fuel c, Z.abs n / 2 < Z.of_nat fuel ->
      _sin_pow_integrate L fuel n x c = (Val (Some rs), c)
      /\ _cos_pow_integrate L fuel n x c = (Val (Some rc), c).
Proof.
  intros He.
  pose proof (Z.div_pos (Z.abs n) 2 (Z.abs_nonneg n) ltac:(lia)) as Hh.
  destruct (sin_pow_even x (S (Z.to_nat (Z.abs n / 2))) n He ltac:(lia))
    as [rs Hs].
  destruct (cos_pow_even x (S (Z.to_nat (Z.abs n / 2))) n He ltac:(lia))
    as [rc Hc].
  exists rs, rc. intros fuel c Hf. split; [apply Hs|apply Hc]; lia.
Qed.

(** *** Exceptions *)

Lemma only_ret {A} (a : A) : raises_only_on_None (ret a).
Proof. intros c e H. discriminate. Qed.

Lemma only_unfinished {A} : raises_only_on_None (@unfinished A).
Proof. intros c e H. discriminate. Qed.

Lemma only_TypeError {A} : raises_only_on_None (@raise A TypeError).
Proof. intros c e [= <-]. auto. Qed.

Lemma only_AttributeError {A} : raises_only_on_None (@raise A AttributeError).
Proof. intros c e [= <-]. auto. Qed.

Lemma only_bind {A B} (m : Cached A) (k : A -> Cached B) :
  raises_only_on_None m -> (forall a, raises_only_on_None (k a)) ->
  raises_only_on_None (bind m k).
Proof.
  intros Hm Hk c e. unfold bind. specialize (Hm c).
  destruct (m c) as [[a|e'|] c']; simpl in *.
  - apply Hk.
  - intros [= <-]. apply Hm. reflexivity.
  - discriminate.
Qed.

Lemma only_for_each {A B} (l : list B) (body : A -> B -> Cached A) :
  (forall acc i, raises_only_on_None (body acc i)) ->
  forall acc, raises_only_on_None (for_each l body acc).
Proof.
  intros Hb. induction l as [|i l IH]; intros acc; simpl.
  - apply only_ret.
  - apply only_bind; [apply Hb | exact IH].
Qed.

Lemma only_pat_sincos (x : Expr) : raises_only_on_None (_pat_sincos L x).
Proof.
  intros c e. unfold _pat_sincos.
  destruct (cache_lookup x c); discriminate.
Qed.

Lemma only_mul_result (q : Expr) (r : option Expr) :
  raises_only_on_None (mul_result L q r).
Proof. destruct r; [apply only_ret | apply only_TypeError]. Qed.

Lemma only_subs_result (r : option Expr) (old new : Expr) :
  raises_only_on_None (subs_result L r old new).
Proof. destruct r; [apply only_ret | apply only_AttributeError]. Qed.

Ltac only_congruence :=
  repeat first
    [ apply only_ret
    | apply only_unfinished
    | apply only_TypeError
    | apply only_AttributeError
    | apply only_pat_sincos
    | apply only_mul_result
    | apply only_subs_result
    | match goal with H : forall _ , _ |- _ => apply H end
    | apply only_bind; [|intros ?]
    | apply only_for_each; intros ? ?
    | match goal with
      | |- raises_only_on_None (if ?b then _ else _) => destruct b
      | |- raises_only_on_None (match ?x with _ => _ end) => destruct x
      end ].

Lemma only_fuel (fuel : nat) :
  (forall f x conds, raises_only_on_None (trigintegrate L fuel f x conds))
  /\ (forall n x, raises_only_on_None (_sin_pow_integrate L fuel n x))
  /\ (forall n x, raises_only_on_None (_cos_pow_integrate L fuel n x)).
Proof.
  induction fuel as [|fuel (Ht & Hs & Hc)].
  - split; [|split]; intros; apply only_unfinished.
  - split; [|split]; intros; simpl; [|only_congruence..].
    apply only_bind; [apply only_pat_sincos|]. intros p.
    destruct (match_ L (rewrite_sincos L f) p) as [M|]; [|apply only_ret].
    destruct ((M_n M =? 0) && (M_m M =? 0)); [apply only_ret|].
    (* in the odd branch one of [n_], [m_] is true, so [ff] is bound *)
    destruct (Z.odd (M_n M)), (Z.odd (M_m M)), (M_n M <? M_m M); simpl;
      only_congruence.
Qed.

(** [trigintegrate] raises nothing of its own: in the odd branch one of
    the two substitutions is always chosen, so [ff] and [uu] are bound,
    and the only exceptions a call can end with are the [TypeError] and
    [AttributeError] of an arithmetic operation or [subs] on a [None]
    returned by a nested call. *)
Theorem trigintegrate_exceptions (fuel : nat) (f x : Expr) (conds : string)
    (c : Cache) (e : exn) :
  fst (trigintegrate L fuel f x conds c) = Exc e ->
  e = TypeError \/ e = AttributeError.
Proof. apply (proj1 (only_fuel fuel)). Qed.

(** *** Even exponents in [trigintegrate] *)

Lemma for_each_returns {A B} (l : list B) (body : A -> B -> Cached A) :
  (forall acc i, i ∈ l -> exists acc', forall c, body acc i c = (Val acc', c)) ->
  forall acc, exists acc', forall c, for_each l body acc c = (Val acc', c).
Proof.
  induction l as [|i l IH]; intros Hb acc.
  - exists acc. reflexivity.
  - destruct (Hb acc i ltac:(left)) as [acc1 H1].
    destruct (IH (fun a j Hj => Hb a j ltac:(right; exact Hj)) acc1)
      as [acc2 H2].
    exists acc2. intros c. simpl. unfold bind. rewrite H1. apply H2.
Qed.

Lemma power_sum_returns (integrator : nat -> Z -> Expr -> Cached (option Expr))
    (fuel : nat) (n m : Z) (x : Expr) :
  (forall i, 0 <= i < m / 2 + 1 ->
     exists r, forall c, integrator fuel (n + 2 * i) x c = (Val (Some r), c)) ->
  forall acc, exists acc', forall c,
    for_each (seqZ 0 (m / 2 + 1))
      (fun res i =>
         r <- integrator fuel (n + 2 * i) x ;;
         t <- mul_result L
                (mul L (Integer ((-1) ^ i)) (binomial L (m / 2) i)) r ;;
         ret (add L res t))
      acc c
    = (Val acc', c).
Proof.
  intros Hi. apply for_each_returns. intros acc i Hin.
  apply elem_of_seqZ in Hin. destruct (Hi i ltac:(lia)) as [r Hr].
  eexists. intros c. unfold bind. rewrite Hr. simpl. reflexivity.
Qed.

Lemma abs_shift_bound (n m i : Z) :
  0 <= i < m / 2 + 1 -> 0 <= m ->
  Z.abs (n + 2 * i) / 2 <= (Z.abs n + Z.abs m) / 2.
Proof.
  intros Hi Hm. apply Z.div_le_mono; [lia|].
  pose proof (Z.mul_div_le m 2 ltac:(lia)) as H.
  revert Hi H. generalize (m / 2). intros h Hi H. lia.
Qed.

(** When the matched exponents are even, of different size, and the
    smaller one is not negative, [trigintegrate] returns an expression
    after at most [(|n| + |m|)/2 + 2] nested calls: it sums power
    integrals of even exponents and never calls itself again. *)
Theorem trigintegrate_even_returns (fuel : nat) (f x : Expr) (conds : string)
    (c : Cache) (M : Match) :
  coherent L c ->
  match_ L (rewrite_sincos L f) (_pat_sincos_body L x) = Some M ->
  Z.even (M_n M) = true -> Z.even (M_m M) = true ->
  (Z.abs (M_m M) < Z.abs (M_n M) /\ 0 <= M_m M)
  \/ (Z.abs (M_n M) < Z.abs (M_m M) /\ 0 <= M_n M) ->
  (Z.abs (M_n M) + Z.abs (M_m M)) / 2 + 1 < Z.of_nat fuel ->
  exists r : Expr, fst (trigintegrate L fuel f x conds c) = Val (Some r).
Proof.
  intros Hc HM Hn Hm Hsize Hf.
  pose proof (Z.div_pos (Z.abs (M_n M) + Z.abs (M_m M)) 2 ltac:(lia) ltac:(lia))
    as Hh.
  destruct fuel as [|fuel]; [lia|].
  simpl. unfold bind at 1.
  destruct (TrigonometryTheory._pat_sincos_run L x c Hc) as (c' & -> & _).
  rewrite HM.
  replace ((M_n M =? 0) && (M_m M =? 0)) with false
    by (symmetry; apply andb_false_iff;
        destruct (Z.eqb_spec (M_n M) 0), (Z.eqb_spec (M_m M) 0); auto; lia).
  rewrite <- !Z.negb_even, Hn, Hm. simpl.
  assert (Hsin : forall i, 0 <= i < M_m M / 2 + 1 -> 0 <= M_m M ->
            exists r, forall c0,
              _sin_pow_integrate L fuel (M_n M + 2 * i) x c0 = (Val (Some r), c0)).
  { intros i Hi Hm0.
    destruct (sin_pow_even x fuel (M_n M + 2 * i)) as [r Hr].
    - apply even_shift; [exact Hn|]. rewrite Z.even_mul. reflexivity.
    - pose proof (abs_shift_bound (M_n M) (M_m M) i Hi Hm0). lia.
    - exists r. intros c0. apply Hr. lia. }
  assert (Hcos : forall i, 0 <= i < M_n M / 2 + 1 -> 0 <= M_n M ->
            exists r, forall c0,
              _cos_pow_integrate L fuel (M_m M + 2 * i) x c0 = (Val (Some r), c0)).
  { intros i Hi Hn0.
    destruct (cos_pow_even x fuel (M_m M + 2 * i)) as [r Hr].
    - apply even_shift; [exact Hm|]. rewrite Z.even_mul. reflexivity.
    - pose proof (abs_shift_bound (M_m M) (M_n M) i Hi Hn0) as Hb.
      rewrite (Z.add_comm (Z.abs (M_m M))) in Hb. lia.
    - exists r. intros c0. apply Hr. lia. }
  destruct Hsize as [[Hlt Hm0]|[Hlt Hn0]].
  - destruct (Z.gtb_spec (Z.abs (M_n M)) (Z.abs (M_m M))); [|lia].
    destruct (Z.gtb_spec (M_m M) 0).
    + destruct (power_sum_returns (_sin_pow_integrate L) fuel (M_n M) (M_m M) x
                  ltac:(intros i Hi; apply Hsin; [exact Hi|lia]) (Integer 0))
        as [acc Hacc].
      unfold bind. rewrite Hacc. simpl.
      destruct (String.eqb conds "piecewise"); eexists; reflexivity.
    + destruct (Z.eqb_spec (M_m M) 0) as [E|]; [|lia].
      destruct (Hsin 0 ltac:(rewrite E; change (0 / 2) with 0; lia) Hm0) as [r Hr].
      rewrite Z.mul_0_r, Z.add_0_r in Hr.
      unfold bind. rewrite Hr. simpl.
      destruct (String.eqb conds "piecewise"); eexists; reflexivity.
  - destruct (Z.gtb_spec (Z.abs (M_n M)) (Z.abs (M_m M))); [lia|].
    destruct (Z.gtb_spec (Z.abs (M_m M)) (Z.abs (M_n M))); [|lia].
    destruct (Z.gtb_spec (M_n M) 0).
    + destruct (power_sum_returns (_cos_pow_integrate L) fuel (M_m M) (M_n M) x
                  ltac:(intros i Hi; apply Hcos; [exact Hi|lia]) (Integer 0))
        as [acc Hacc].
      unfold bind. rewrite Hacc. simpl.
      destruct (String.eqb conds "piecewise"); eexists; reflexivity.
    + destruct (Z.eqb_spec (M_n M) 0) as [E|]; [|lia].
      destruct (Hcos 0 ltac:(rewrite E; change (0 / 2) with 0; lia) Hn0) as [r Hr].
      rewrite Z.mul_0_r, Z.add_0_r in Hr.
      unfold bind. rewrite Hr. simpl.
      destruct (String.eqb conds "piecewise"); eexists; reflexivity.
Qed.

End Facts.
(** *** The sample library *)

Lemma trigintegrate_table_grows_witness :
  let x := Symbol "x" in
  let y := Symbol "y" in
  let c := [(y, _pat_sincos_body Sample.library y)] in
  let c' := snd (trigintegrate Sample.library 3 (sin x) x "piecewise" c) in
  cache_lookup y c = Some (_pat_sincos_body Sample.library y)
  /\ cache_lookup y c' = Some (_pat_sincos_body Sample.library y)
  /\ cache_lookup x c' <> None.
Proof.
  intros x y c c'. split; [reflexivity|].
  pose proof (trigintegrate_table_grows Sample.library 3 (sin x) x
                "piecewise" c) as [H1 H2].
  split.
  - apply H1. reflexivity.
  - apply H2. discriminate.
Defined.

Lemma trigintegrate_quotient_shape_witness :
  exists r : Expr,
    coherent Sample.library []
    /\ String.eqb "none" "piecewise" = false
    /\ fst (trigintegrate Sample.library 1 (sin (Symbol "x")) (Symbol "x")
                          "none" []) = Val (Some r)
    /\ exists M : Match,
         match_ Sample.library (rewrite_sincos Sample.library (sin (Symbol "x")))
                (_pat_sincos_body Sample.library (Symbol "x")) = Some M
         /\ if (M_n M =? 0) && (M_m M =? 0) then r = Symbol "x"
            else exists q : Expr, r = div Sample.library q (M_a M).
Proof.
  eexists. split; [constructor|]. split; [reflexivity|].
  split; [vm_compute; reflexivity|].
  apply (trigintegrate_quotient_shape Sample.library 1 (sin (Symbol "x"))
           (Symbol "x") "none" []).
  - constructor.
  - reflexivity.
  - vm_compute. reflexivity.
Defined.

Lemma pow_integrate_even_witness :
  Z.even (-4) = true
  /\ exists rs rc : Expr,
       forall fuel c, Z.abs (-4) / 2 < Z.of_nat fuel ->
         _sin_pow_integrate Sample.library fuel (-4) (Symbol "x") c
         = (Val (Some rs), c)
         /\ _cos_pow_integrate Sample.library fuel (-4) (Symbol "x") c
            = (Val (Some rc), c).
Proof.
  split; [reflexivity|].
  exact (pow_integrate_even Sample.library (Symbol "x") (-4) eq_refl).
Defined.

(** The nested call on [sin(x)**2 * cos(x)**0] finds no match and returns
    [None]; multiplying it raises [TypeError]. *)
Lemma trigintegrate_exceptions_witness :
  fst (trigintegrate SampleOneMatch.library 2 (Symbol "f0") (Symbol "x")
         "piecewise" []) = Exc TypeError
  /\ (TypeError = TypeError \/ TypeError = AttributeError).
Proof.
  split; [reflexivity|].
  exact (trigintegrate_exceptions SampleOneMatch.library 2 (Symbol "f0")
           (Symbol "x") "piecewise" [] TypeError eq_refl).
Defined.

Lemma trigintegrate_even_returns_witness :
  let f := Pow (sin (Symbol "x")) (Integer 2) in
  let x := Symbol "x" in
  let M := mkMatch (Integer 1) 2 0 in
  coherent Sample.library []
  /\ match_ Sample.library (rewrite_sincos Sample.library f)
            (_pat_sincos_body Sample.library x) = Some M
  /\ Z.even (M_n M) = true /\ Z.even (M_m M) = true
  /\ ((Z.abs (M_m M) < Z.abs (M_n M) /\ 0 <= M_m M)
      \/ (Z.abs (M_n M) < Z.abs (M_m M) /\ 0 <= M_n M))
  /\ (Z.abs (M_n M) + Z.abs (M_m M)) / 2 + 1 < Z.of_nat 3
  /\ exists r : Expr,
       fst (trigintegrate Sample.library 3 f x "piecewise" []) = Val (Some r).
Proof.
  intros f x M.
  assert (Hc : coherent Sample.library []) by constructor.
  assert (Hs : (Z.abs (M_m M) < Z.abs (M_n M) /\ 0 <= M_m M)
      \/ (Z.abs (M_n M) < Z.abs (M_m M) /\ 0 <= M_n M))
    by (left; split; [reflexivity | discriminate]).
  split; [exact Hc|]. split; [reflexivity|]. split; [reflexivity|].
  split; [reflexivity|]. split; [exact Hs|]. split; [reflexivity|].
  exact (trigintegrate_even_returns Sample.library 3 f x "piecewise" [] M
           Hc eq_refl eq_refl eq_refl Hs eq_refl).
Defined.

End TrigonometryExtra.

(** * More facts about qapply.py *)

Module QApplyExtra.
Import QApply Runs.

Lemma pop_snoc {A} (l : list A) (x : A) : pop (l ++ [x]) = Some (x, l).
Proof. unfold pop. rewrite rev_app_distr. simpl. rewrite rev_involutive. reflexivity. Qed.

Lemma pop_Some {A} (l l' : list A) (x : A) :
  pop l = Some (x, l') -> l = l' ++ [x].
Proof.
  unfold pop. destruct (rev l) as [|y r] eqn:E; [discriminate|].
  intros [= <- <-]. rewrite <- (rev_involutive l), E. reflexivity.
Qed.

Lemma pop_None {A} (l : list A) : pop l = None -> l = [].
Proof.
  unfold pop. destruct (rev l) as [|y r] eqn:E; [|discriminate].
  intros _. rewrite <- (rev_involutive l), E. reflexivity.
Qed.

Section Facts.
Context (L : Library).

(** *** The guard on commutative factors *)

(** When one of the two rightmost factors of a product is commutative and
    not a [Wavefunction], [qapply_Mul] returns the product as it is,
    whatever stands to their left; so does [qapply], without the [dagger]
    option, on such a product that [expand] leaves alone. *)
Theorem qapply_Mul_commutative_guard
    (pre : list Expr) (lhs rhs : Expr) (options : Options) (fuel : nat) :
  (is_commutative L rhs && negb (is_Wavefunction rhs))
  || (is_commutative L lhs && negb (is_Wavefunction lhs)) = true ->
  qapply_Mul L (S fuel) (Mul (pre ++ [lhs; rhs])) options
  = Val (Mul (pre ++ [lhs; rhs]))
  /\ (expand L (Mul (pre ++ [lhs; rhs])) = Mul (pre ++ [lhs; rhs]) ->
      options_get options "dagger" false = false ->
      qapply L (S (S fuel)) (Mul (pre ++ [lhs; rhs])) options
      = Val (Mul (pre ++ [lhs; rhs]))).
Proof.
  intros Hg.
  assert (Hm : qapply_Mul L (S fuel) (Mul (pre ++ [lhs; rhs])) options
               = Val (Mul (pre ++ [lhs; rhs]))).
  { cbn [qapply_Mul].
    destruct (length (pre ++ [lhs; rhs]) <=? 1)%nat; [reflexivity|].
    change (pre ++ [lhs; rhs]) with (pre ++ [lhs] ++ [rhs]).
    rewrite app_assoc, !pop_snoc, Hg. reflexivity. }
  split; [exact Hm|]. intros He Hd.
  cbn [qapply].
  destruct (eqb (Mul (pre ++ [lhs; rhs])) (Integer 0)) eqn:E.
  { apply eqb_true in E. discriminate. }
  rewrite He, Hm, Hd. simpl. rewrite andb_false_r. reflexivity.
Qed.

(** *** Tensor products, density operators and powers *)

Lemma list_comprehension_Val {A B} (body : A -> res B) (l : list A) (ys : list B) :
  list_comprehension body l = Val ys <-> Forall2 (fun x y => body x = Val y) l ys.
Proof.
  revert ys. induction l as [|x l IH]; intros ys; simpl.
  - split.
    + intros [= <-]. constructor.
    + intros H. inversion H. reflexivity.
  - split.
    + destruct (body x) as [y| |] eqn:Ex; simpl; try discriminate.
      destruct (list_comprehension body l) as [ys'| |]; simpl; try discriminate.
      intros [= <-]. constructor; [exact Ex | apply IH; reflexivity].
    + intros H. inversion H as [|? y ? ys' Hx Hl]; subst.
      rewrite Hx. simpl. apply IH in Hl. rewrite Hl. reflexivity.
Qed.

Lemma qapply_Mul_returns_mono (e : Expr) (options : Options) (v : Expr) (f1 f2 : nat) :
  (f1 <= f2)%nat -> qapply_Mul L f1 e options = Val v ->
  qapply_Mul L f2 e options = Val v.
Proof.
  intros Hle H. destruct (QApplyTheory.qapply_fuel_mono L f1 f2 Hle) as [_ Hm].
  eapply res_le_Val; eauto.
Qed.

(** Finitely many calls that return do so within one common budget. *)
Lemma Forall2_common_budget {A B} (m : nat -> A -> res B) (l : list A) (ys : list B) :
  (forall f1 f2 x y, (f1 <= f2)%nat -> m f1 x = Val y -> m f2 x = Val y) ->
  Forall2 (fun x y => returns (fun fuel => m fuel x) y) l ys ->
  exists k, Forall2 (fun x y => m k x = Val y) l ys.
Proof.
  intros Hmono. induction 1 as [|x y l ys [k1 H1] _ [k2 IH]].
  - exists 0%nat. constructor.
  - exists (Nat.max k1 k2). constructor.
    + eapply Hmono; [apply Nat.le_max_l | exact H1].
    + eapply Forall2_impl; [exact IH|]. intros x' y' H'. simpl in H'.
      eapply Hmono; [apply Nat.le_max_r | exact H'].
Qed.

(** [qapply] maps over a tensor product: when the expanded form of a
    non-zero [e] is [TensorProduct(t1, ..., tn)], [qapply(e)] returns [v]
    exactly when each [qapply(ti)] returns some [ri] and [v] is
    [TensorProduct(r1, ..., rn)]. *)
Theorem qapply_TensorProduct (e : Expr) (options : Options) (args : list Expr)
    (v : Expr) :
  e <> Integer 0 ->
  expand L e = TensorProduct args ->
  returns (fun fuel => qapply L fuel e options) v
  <-> exists rs,
        Forall2 (fun t r => returns (fun fuel => qapply L fuel t options) r)
                args rs
        /\ v = canon L (TensorProduct rs).
Proof.
  intros H0 He. apply eqb_false in H0.
  assert (Hstep : forall fuel,
    qapply L (S fuel) e options
    = (ts ← list_comprehension (fun t => qapply L fuel t options) args;
       Val (canon L (TensorProduct ts)))).
  { intros fuel. cbn [qapply]. rewrite H0, He. reflexivity. }
  split.
  - intros [[|fuel] H]; [discriminate|]. rewrite Hstep in H.
    destruct (list_comprehension _ args) as [ts| |] eqn:E; try discriminate.
    simpl in H. injection H as <-. exists ts. split; [|reflexivity].
    apply list_comprehension_Val in E.
    eapply Forall2_impl; [exact E|]. intros t r Ht. exists fuel. exact Ht.
  - intros (rs & Hrs & ->).
    destruct (Forall2_common_budget (fun fuel t => qapply L fuel t options)
                args rs) as [k Hk]; [|exact Hrs|].
    { intros f1 f2 x y. apply QApplyTheory.returns_mono. }
    exists (S k). rewrite Hstep.
    apply list_comprehension_Val in Hk. rewrite Hk. reflexivity.
Qed.

(** [qapply] on a density operator rewrites the states and keeps the
    probabilities: when the expanded form of a non-zero [e] is
    [Density((s1, p1), ..., (sn, pn))], [qapply(e)] returns [v] exactly
    when each [qapply(si)] returns some [ri] and [v] is
    [Density((r1, p1), ..., (rn, pn))]. *)
Theorem qapply_Density (e : Expr) (options : Options)
    (args : list (Expr * Expr)) (v : Expr) :
  e <> Integer 0 ->
  expand L e = Density args ->
  returns (fun fuel => qapply L fuel e options) v
  <-> exists rs,
        Forall2 (fun s r => returns (fun fuel => qapply L fuel s options) r)
                (map fst args) rs
        /\ v = canon L (Density (zip rs (map snd args))).
Proof.
  intros H0 He. apply eqb_false in H0.
  assert (Hstep : forall fuel,
    qapply L (S fuel) e options
    = (new_args ← list_comprehension
         (fun sp : Expr * Expr =>
            s ← qapply L fuel (fst sp) options; Val (s, snd sp)) args;
       Val (canon L (Density new_args)))).
  { intros fuel. cbn [qapply]. rewrite H0, He. reflexivity. }
  assert (Hpairs : forall fuel new_args,
    Forall2 (fun sp np => (s ← qapply L fuel (fst sp) options; Val (s, snd sp))
                          = Val np) args new_args
    <-> Forall2 (fun s r => qapply L fuel s options = Val r)
                (map fst args) (map fst new_args)
        /\ new_args = zip (map fst new_args) (map snd args)).
  { intros fuel. clear He Hstep. induction args as [|[s p] l IH]; intros new_args.
    - split.
      + intros H. inversion H. split; [constructor | reflexivity].
      + intros [H _]. destruct new_args; [constructor | inversion H].
    - split.
      + intros H. inversion H as [|? np ? nl Hx Hl]; subst. simpl in Hx.
        destruct (qapply L fuel s options) as [r| |] eqn:Es; try discriminate.
        injection Hx as <-. apply IH in Hl as [Hl1 Hl2]. simpl. split.
        * constructor; assumption.
        * f_equal. exact Hl2.
      + destruct new_args as [|[r q] nl]; simpl; [intros [H _]; inversion H|].
        intros [H1 H2]. inversion H1 as [|? ? ? ? Hx Hl]; subst.
        injection H2 as -> H2. constructor.
        * simpl. rewrite Hx. reflexivity.
        * apply IH. split; assumption. }
  split.
  - intros [[|fuel] H]; [discriminate|]. rewrite Hstep in H.
    destruct (list_comprehension _ args) as [new_args| |] eqn:E; try discriminate.
    simpl in H. injection H as <-.
    apply list_comprehension_Val, Hpairs in E as [E1 E2].
    exists (map fst new_args). split; [|rewrite <- E2; reflexivity].
    eapply Forall2_impl; [exact E1|]. intros s r Hs. exists fuel. exact Hs.
  - intros (rs & Hrs & ->).
    destruct (Forall2_common_budget (fun fuel s => qapply L fuel s options)
                (map fst args) rs) as [k Hk]; [|exact Hrs|].
    { intros f1 f2 x y. apply QApplyTheory.returns_mono. }
    exists (S k). rewrite Hstep.
    assert (Hlen : length rs = length args).
    { apply Forall2_length in Hk. rewrite length_map in Hk. auto. }
    assert (Hfst : map fst (zip rs (map snd args)) = rs).
    { apply fst_zip. rewrite length_map. lia. }
    assert (E : list_comprehension
                  (fun sp : Expr * Expr =>
                     s ← qapply L k (fst sp) options; Val (s, snd sp)) args
                = Val (zip rs (map snd args))).
    { apply list_comprehension_Val, Hpairs. rewrite Hfst. auto. }
    rewrite E. reflexivity.
Qed.

(** [qapply] on a power goes to the base and keeps the exponent: when the
    expanded form of a non-zero [e] is [base**exp], [qapply(e)] returns
    [v] exactly when [qapply(base)] returns some [b] and [v] is
    [b**exp]; the exponent is never looked at. *)
Theorem qapply_Pow (e : Expr) (options : Options) (base exp v : Expr) :
  e <> Integer 0 ->
  expand L e = Pow base exp ->
  returns (fun fuel => qapply L fuel e options) v
  <-> exists b,
        returns (fun fuel => qapply L fuel base options) b
        /\ v = pow L b exp.
Proof.
  intros H0 He. apply eqb_false in H0.
  assert (Hstep : forall fuel,
    qapply L (S fuel) e options
    = (b ← qapply L fuel base options; Val (pow L b exp))).
  { intros fuel. cbn [qapply]. rewrite H0, He. reflexivity. }
  split.
  - intros [[|fuel] H]; [discriminate|]. rewrite Hstep in H.
    destruct (qapply L fuel base options) as [b| |] eqn:E; try discriminate.
    simpl in H. injection H as <-. exists b. split; [|reflexivity].
    exists fuel. exact E.
  - intros (b & [fuel Hb] & ->). exists (S fuel). rewrite Hstep, Hb. reflexivity.
Qed.

(** *** Exceptions *)

Lemma raises_in_Val {A} (P : exn -> Prop) (a : A) : raises_in P (Val a).
Proof. intros x H. discriminate. Qed.

Lemma raises_in_Unfinished {A} (P : exn -> Prop) : raises_in P (@Unfinished A).
Proof. intros x H. discriminate. Qed.

Lemma raises_in_bind {A B} (P : exn -> Prop) (m : res A) (k : A -> res B) :
  raises_in P m -> (forall a, raises_in P (k a)) -> raises_in P (m ≫= k).
Proof.
  intros Hm Hk. destruct m as [a|e|]; simpl.
  - apply Hk.
  - intros x [= <-]. apply Hm. reflexivity.
  - apply raises_in_Unfinished.
Qed.

Lemma raises_in_list_comprehension {A B} (P : exn -> Prop)
    (body : A -> res B) (l : list A) :
  (forall x, raises_in P (body x)) -> raises_in P (list_comprehension body l).
Proof.
  intros Hb. induction l as [|x l IH]; simpl.
  - apply raises_in_Val.
  - apply raises_in_bind; [apply Hb|]. intros y.
    apply raises_in_bind; [exact IH|]. intros ys. apply raises_in_Val.
Qed.

Lemma raises_in_for_each {A B} (P : exn -> Prop)
    (l : list B) (body : A -> B -> res A) :
  (forall acc x, raises_in P (body acc x)) ->
  forall acc, raises_in P (for_each l body acc).
Proof.
  intros Hb. induction l as [|x l IH]; intros acc; simpl.
  - apply raises_in_Val.
  - apply raises_in_bind; [apply Hb | exact IH].
Qed.

Section Raises.
Context (options : Options) (P : exn -> Prop).
Hypothesis P_apply : forall lhs rhs x,
  _apply_operator L lhs rhs options = Exc x ->
  unimplemented (@Exc (option Expr) x) = false -> P x.
Hypothesis P_Commutator : forall A B args,
  doit L (Commutator A B) = Add args -> (length args < 2)%nat -> P IndexError.
Hypothesis P_AntiCommutator : forall A B args,
  doit L (AntiCommutator A B) = Add args -> (length args < 2)%nat -> P IndexError.

Lemma raises_in_try (lhs rhs : Expr) :
  raises_in P (apply_or_inner_product L lhs rhs options).
Proof.
  unfold apply_or_inner_product.
  destruct (_apply_operator L lhs rhs options) as [r|x|] eqn:E1;
    [apply raises_in_Val | | apply raises_in_Unfinished].
  assert (H2 : raises_in P
    match _apply_operator L rhs lhs options with
    | Exc NotImplementedError | Exc AttributeError =>
        if is_BraBase lhs && is_KetBase rhs
        then Val (Some (if options_get options "ip_doit" true
                        then doit L (canon L (InnerProduct lhs rhs))
                        else canon L (InnerProduct lhs rhs)))
        else Val None
    | result => result
    end).
  { destruct (_apply_operator L rhs lhs options) as [r|y|] eqn:E2;
      [apply raises_in_Val | | apply raises_in_Unfinished].
    destruct y; try (destruct (is_BraBase lhs && is_KetBase rhs);
                     apply raises_in_Val);
      intros z [= <-]; eapply P_apply; eauto. }
  destruct x; try exact H2; intros z [= <-]; eapply P_apply; eauto.
Qed.

(** One more level of recursion. *)
Ltac raises_congruence :=
  repeat first
    [ apply raises_in_Val
    | apply raises_in_Unfinished
    | apply raises_in_try
    | match goal with H : forall _ , _ |- _ => apply H end
    | apply raises_in_bind; [|intros ?]
    | apply raises_in_list_comprehension; intros ?
    | apply raises_in_for_each; intros ? ?
    | match goal with
      | |- raises_in _ (if ?b then _ else _) => destruct b
      | |- raises_in _ (match ?x with _ => _ end) => destruct x eqn:?
      end ].

Section Step.
Context (fuel : nat).
Hypothesis Hq : forall e, raises_in P (qapply L fuel e options).
Hypothesis Hm : forall e, raises_in P (qapply_Mul L fuel e options).

Lemma raises_in_qapply_step (e : Expr) :
  raises_in P (qapply L (S fuel) e options).
Proof. clear P_apply P_Commutator P_AntiCommutator. cbn [qapply]. raises_congruence. Qed.

Lemma raises_in_qapply_Mul_step (e : Expr) :
  raises_in P (qapply_Mul L (S fuel) e options).
Proof.
  cbn [qapply_Mul]. destruct e as [| | | | | | |e_args| | | | | | | | | | | | | | | | |];
    try apply raises_in_Val.
  destruct (length e_args <=? 1)%nat eqn:Elen; [apply raises_in_Val|].
  apply Nat.leb_gt in Elen.
  destruct (pop e_args) as [[rhs args1]|] eqn:E1;
    [|apply pop_None in E1; subst; simpl in Elen; lia].
  apply pop_Some in E1. subst e_args. rewrite length_app in Elen. simpl in Elen.
  destruct (pop args1) as [[lhs args2]|] eqn:E2;
    [|apply pop_None in E2; subst; simpl in Elen; lia].
  clear Elen E2.
  destruct ((is_commutative L rhs && negb (is_Wavefunction rhs))
            || (is_commutative L lhs && negb (is_Wavefunction lhs)));
    [apply raises_in_Val|].
  assert (Hrest : forall args lhs,
    raises_in P
      (let '(args, lhs) :=
         match lhs with
         | OuterProduct ket bra => (args ++ [ket], bra)
         | _ => (args, lhs)
         end in
       match lhs with
       | Commutator _ _ | AntiCommutator _ _ =>
           let comm := doit L lhs in
           match comm with
           | Add (c0 :: c1 :: _) =>
               qapply L fuel
                 (add L (Mul_ L (args ++ [c0; rhs])) (Mul_ L (args ++ [c1; rhs])))
                 options
           | Add _ => Exc IndexError
           | _ => qapply L fuel (mul L (mul L (Mul_ L args) comm) rhs) options
           end
       | _ =>
         if tensor_applicable lhs rhs then
           ts ← list_comprehension
                  (fun lr : Expr * Expr =>
                     qapply L fuel (mul L (fst lr) (snd lr)) options)
                  (zip (tensor_args lhs) (tensor_args rhs));
           let result := expand_tensorproduct L (canon L (TensorProduct ts)) in
           r ← qapply_Mul L fuel (Mul_ L args) options;
           Val (mul L r result)
         else
         result ← apply_or_inner_product L lhs rhs options;
         match result with
         | Some result =>
             if eqb result (Integer 0) then Val (Integer 0)
             else if is_InnerProduct result then
               r ← qapply_Mul L fuel (Mul_ L args) options;
               Val (mul L result r)
             else
               qapply L fuel (mul L (Mul_ L args) result) options
         | None =>
             if (length args =? 0)%nat then
               Val (Mul (args1 ++ [rhs]))
             else
               r ← qapply_Mul L fuel (Mul_ L (args ++ [lhs])) options;
               Val (mul L r rhs)
         end
       end)).
  { clear lhs. intros args lhs.
    assert (Hcomm : forall args lhs,
      raises_in P
        match lhs with
        | Commutator _ _ | AntiCommutator _ _ =>
            let comm := doit L lhs in
            match comm with
            | Add (c0 :: c1 :: _) =>
                qapply L fuel
                  (add L (Mul_ L (args ++ [c0; rhs])) (Mul_ L (args ++ [c1; rhs])))
                  options
            | Add _ => Exc IndexError
            | _ => qapply L fuel (mul L (mul L (Mul_ L args) comm) rhs) options
            end
        | _ =>
          if tensor_applicable lhs rhs then
            ts ← list_comprehension
                   (fun lr : Expr * Expr =>
                      qapply L fuel (mul L (fst lr) (snd lr)) options)
                   (zip (tensor_args lhs) (tensor_args rhs));
            let result := expand_tensorproduct L (canon L (TensorProduct ts)) in
            r ← qapply_Mul L fuel (Mul_ L args) options;
            Val (mul L r result)
          else
          result ← apply_or_inner_product L lhs rhs options;
          match result with
          | Some result =>
              if eqb result (Integer 0) then Val (Integer 0)
              else if is_InnerProduct result then
                r ← qapply_Mul L fuel (Mul_ L args) options;
                Val (mul L result r)
              else
                qapply L fuel (mul L (Mul_ L args) result) options
          | None =>
              if (length args =? 0)%nat then
                Val (Mul (args1 ++ [rhs]))
              else
                r ← qapply_Mul L fuel (Mul_ L (args ++ [lhs])) options;
                Val (mul L r rhs)
          end
        end).
    { clear args lhs. intros args lhs.
      assert (Hplain : raises_in P
        (if tensor_applicable lhs rhs then
            ts ← list_comprehension
                   (fun lr : Expr * Expr =>
                      qapply L fuel (mul L (fst lr) (snd lr)) options)
                   (zip (tensor_args lhs) (tensor_args rhs));
            let result := expand_tensorproduct L (canon L (TensorProduct ts)) in
            r ← qapply_Mul L fuel (Mul_ L args) options;
            Val (mul L r result)
          else
          result ← apply_or_inner_product L lhs rhs options;
          match result with
          | Some result =>
              if eqb result (Integer 0) then Val (Integer 0)
              else if is_InnerProduct result then
                r ← qapply_Mul L fuel (Mul_ L args) options;
                Val (mul L result r)
              else
                qapply L fuel (mul L (Mul_ L args) result) options
          | None =>
              if (length args =? 0)%nat then
                Val (Mul (args1 ++ [rhs]))
              else
                r ← qapply_Mul L fuel (Mul_ L (args ++ [lhs])) options;
                Val (mul L r rhs)
          end)).
      { destruct (tensor_applicable lhs rhs).
        - apply raises_in_bind; [apply raises_in_list_comprehension; intros ?; apply Hq|].
          intros ts. apply raises_in_bind; [apply Hm|]. intros r. apply raises_in_Val.
        - apply raises_in_bind; [apply raises_in_try|]. intros [result|].
          + destruct (eqb result (Integer 0)); [apply raises_in_Val|].
            destruct (is_InnerProduct result); [|apply Hq].
            apply raises_in_bind; [apply Hm|]. intros r. apply raises_in_Val.
          + destruct (length args =? 0)%nat; [apply raises_in_Val|].
            apply raises_in_bind; [apply Hm|]. intros r. apply raises_in_Val. }
      destruct lhs; try exact Hplain; cbv zeta.
      - destruct (doit L (Commutator lhs1 lhs2)) as
          [| | | | | |cargs| | | | | | | | | | | | | | | | | |] eqn:Ed;
          try apply Hq.
        destruct cargs as [|c0 [|c1 cargs]]; try apply Hq;
          (intros x [= <-]; eapply P_Commutator; [exact Ed | simpl; lia]).
      - destruct (doit L (AntiCommutator lhs1 lhs2)) as
          [| | | | | |cargs| | | | | | | | | | | | | | | | | |] eqn:Ed;
          try apply Hq.
        destruct cargs as [|c0 [|c1 cargs]]; try apply Hq;
          (intros x [= <-]; eapply P_AntiCommutator; [exact Ed | simpl; lia]). }
    match goal with
    | |- raises_in P (let '(_, _) := ?s in _) => destruct s as [args' lhs']
    end.
    apply Hcomm. }
  match goal with
  | |- raises_in P (let '(_, _) := ?s in _) => destruct s as [args' lhs']
  end.
  apply Hrest.
Qed.
End Step.

Lemma raises_in_qapply (fuel : nat) :
  (forall e, raises_in P (qapply L fuel e options))
  /\ (forall e, raises_in P (qapply_Mul L fuel e options)).
Proof.
  induction fuel as [|fuel [IHq IHm]].
  - split; intros e; apply raises_in_Unfinished.
  - split; intros e;
      [apply raises_in_qapply_step | apply raises_in_qapply_Mul_step]; assumption.
Qed.
End Raises.

(** A [NotImplementedError] or [AttributeError] of an operator application
    never leaves [qapply] or [qapply_Mul]: whatever the expression, the
    options and the library, neither call ends in one of these two
    exceptions. *)
Theorem qapply_catches_unimplemented (fuel : nat) (e : Expr) (options : Options) :
  unimplemented (qapply L fuel e options) = false
  /\ unimplemented (qapply_Mul L fuel e options) = false.
Proof.
  assert (H : (forall e, raises_in (fun x => unimplemented (@Exc Expr x) = false)
                           (qapply L fuel e options))
              /\ (forall e, raises_in (fun x => unimplemented (@Exc Expr x) = false)
                              (qapply_Mul L fuel e options))).
  { apply raises_in_qapply.
    - intros lhs rhs x _ Hx. destruct x; try discriminate; reflexivity.
    - reflexivity.
    - reflexivity. }
  destruct H as [Hq Hm]. split.
  - destruct (qapply L fuel e options) as [v|x|] eqn:E; try reflexivity.
    apply (Hq e x E).
  - destruct (qapply_Mul L fuel e options) as [v|x|] eqn:E; try reflexivity.
    apply (Hm e x E).
Qed.

(** [qapply] raises nothing of its own: when operator applications raise
    only [NotImplementedError] or [AttributeError], and [doit] on a
    commutator or anticommutator never gives a sum of fewer than two
    terms, no call of [qapply] or [qapply_Mul] ends in an exception. *)
Theorem qapply_raises_nothing (fuel : nat) (e : Expr) (options : Options) (x : exn) :
  (forall lhs rhs y, _apply_operator L lhs rhs options = Exc y ->
                     unimplemented (@Exc (option Expr) y) = true) ->
  (forall A B args, doit L (Commutator A B) = Add args -> (2 <= length args)%nat) ->
  (forall A B args, doit L (AntiCommutator A B) = Add args -> (2 <= length args)%nat) ->
  qapply L fuel e options <> Exc x /\ qapply_Mul L fuel e options <> Exc x.
Proof.
  intros Ha Hc Hac.
  assert (H : (forall e, raises_in (fun _ => False) (qapply L fuel e options))
              /\ (forall e, raises_in (fun _ => False)
                              (qapply_Mul L fuel e options))).
  { apply raises_in_qapply.
    - intros lhs rhs y Hy Hn. rewrite (Ha lhs rhs y Hy) in Hn. discriminate.
    - intros A B args Hd Hl. specialize (Hc A B args Hd). lia.
    - intros A B args Hd Hl. specialize (Hac A B args Hd). lia. }
  destruct H as [Hq Hm].
  split; intros E; [apply (Hq e x E) | apply (Hm e x E)].
Qed.

End Facts.

(** *** Positive powers of an operator *)

(** What the unrolling needs from the library: an operator [A] whose
    application to the ket [|k>] is implemented and gives the ket back,
    factors that do not commute, and constructors and [expand] that
    evaluate [A**0], [A**1] and products of no or one factor and leave
    the other powers and the products with the ket as they are. *)
Section PositivePower.
Context (L : Library) (a k : string) (options : Options).
Hypothesis no_dagger : options_get options "dagger" false = false.
Hypothesis apply_A : _apply_operator L (Operator a) (Ket k) options = Val (Some (Ket k)).
Hypothesis ket_nc : is_commutative L (Ket k) = false.
Hypothesis op_nc : is_commutative L (Operator a) = false.
Hypothesis one_c : is_commutative L (Integer 1) = true.
Hypothesis pow_nc : forall z,
  is_commutative L (Pow (Operator a) (Integer z)) = false.
Hypothesis canon_pow : forall z, 1 < z ->
  canon L (Pow (Operator a) (Integer z)) = Pow (Operator a) (Integer z).
Hypothesis canon_pow1 : canon L (Pow (Operator a) (Integer 1)) = Operator a.
Hypothesis canon_pow0 : canon L (Pow (Operator a) (Integer 0)) = Integer 1.
Hypothesis canon_nil : canon L (Mul []) = Integer 1.
Hypothesis canon_single : forall e, canon L (Mul [e]) = e.
Hypothesis canon_pair : forall e, canon L (Mul [e; Ket k]) = Mul [e; Ket k].
Hypothesis expand_pair : forall e, expand L (Mul [e; Ket k]) = Mul [e; Ket k].

Lemma eqb_Mul_zero (args : list Expr) : eqb (Mul args) (Integer 0) = false.
Proof. apply eqb_false. discriminate. Qed.

Lemma qapply_on_Mul (fuel : nat) (e : Expr) :
  qapply L (S fuel) (Mul [e; Ket k]) options
  = qapply_Mul L fuel (Mul [e; Ket k]) options.
Proof.
  cbn [qapply]. rewrite eqb_Mul_zero, expand_pair, no_dagger.
  destruct (qapply_Mul L fuel (Mul [e; Ket k]) options) as [r| |]; simpl;
    [rewrite andb_false_r|..]; reflexivity.
Qed.

Lemma scalar_times_ket (fuel : nat) :
  qapply L (S (S fuel)) (Mul [Integer 1; Ket k]) options
  = Val (Mul [Integer 1; Ket k]).
Proof.
  rewrite qapply_on_Mul. cbn [qapply_Mul length Nat.leb].
  change (pop [Integer 1; Ket k]) with (Some (Ket k, [Integer 1])).
  cbv beta iota. change (pop [Integer 1]) with (Some (Integer 1, @nil Expr)).
  cbv beta iota. rewrite ket_nc, one_c. reflexivity.
Qed.

Lemma operator_round (fuel : nat) :
  qapply L (S (S fuel)) (Mul [Operator a; Ket k]) options
  = qapply L fuel (Mul [Integer 1; Ket k]) options.
Proof.
  rewrite qapply_on_Mul. cbn [qapply_Mul length Nat.leb].
  change (pop [Operator a; Ket k]) with (Some (Ket k, [Operator a])).
  cbv beta iota. change (pop [Operator a]) with (Some (Operator a, @nil Expr)).
  cbv beta iota. rewrite ket_nc, op_nc. cbn [andb orb].
  cbn [tensor_applicable]. unfold apply_or_inner_product. rewrite apply_A.
  cbn [mbind res_bind is_InnerProduct].
  assert (E : eqb (Ket k) (Integer 0) = false) by (apply eqb_false; discriminate).
  rewrite E. unfold mul, Mul_. rewrite canon_nil, canon_pair.
  reflexivity.
Qed.

Lemma operator_times_ket (fuel : nat) :
  qapply L (S (S (S (S fuel)))) (Mul [Operator a; Ket k]) options
  = Val (Mul [Integer 1; Ket k]).
Proof. rewrite operator_round. apply scalar_times_ket. Qed.

(** One round: [A] is split off the power and applied to the ket. *)
Lemma power_times_ket (fuel : nat) (z : Z) :
  qapply L (S (S fuel)) (Mul [Pow (Operator a) (Integer z); Ket k]) options
  = qapply L fuel (Mul [pow L (Operator a) (Integer (z - 1)); Ket k]) options.
Proof.
  rewrite qapply_on_Mul. cbn [qapply_Mul length Nat.leb].
  change (pop [Pow (Operator a) (Integer z); Ket k])
    with (Some (Ket k, [Pow (Operator a) (Integer z)])).
  cbv beta iota.
  change (pop [Pow (Operator a) (Integer z)])
    with (Some (Pow (Operator a) (Integer z), @nil Expr)).
  cbv beta iota. rewrite ket_nc, pow_nc. cbn [andb orb app].
  cbn [tensor_applicable]. unfold apply_or_inner_product. rewrite apply_A.
  cbn [mbind res_bind is_InnerProduct].
  assert (E : eqb (Ket k) (Integer 0) = false) by (apply eqb_false; discriminate).
  rewrite E. unfold mul, Mul_. rewrite canon_single, canon_pair.
  reflexivity.
Qed.

Lemma positive_power_unrolls (n : nat) : forall fuel,
  qapply L (2 * n + 4 + fuel)
    (Mul [Pow (Operator a) (Integer (Z.of_nat (S n))); Ket k]) options
  = Val (Mul [Integer 1; Ket k]).
Proof.
  induction n as [|n IH]; intros fuel.
  - change (2 * 0 + 4 + fuel)%nat with (S (S (S (S fuel)))).
    rewrite power_times_ket. change (Z.of_nat 1 - 1) with 0.
    unfold pow. rewrite canon_pow0. apply scalar_times_ket.
  - replace (2 * S n + 4 + fuel)%nat with (S (S (2 * n + 4 + fuel))) by lia.
    rewrite power_times_ket.
    replace (Z.of_nat (S (S n)) - 1) with (Z.of_nat (S n)) by lia.
    unfold pow. destruct n as [|n].
    + change (Z.of_nat 1) with 1. rewrite canon_pow1.
      apply operator_times_ket.
    + rewrite canon_pow by lia. apply IH.
Qed.
End PositivePower.

(** For every positive integer [n], [qapply(A**n * |k>)] returns: with an
    operator [A] that gives the ket back, [qapply_Mul] splits one [A] off
    the power, applies it, and is called on [A**(n-1) * |k>], down to
    the ket with the factor [1], within [2*n + 2] nested calls. *)
Theorem qapply_positive_power_returns
    (a k : string) (options : Options) (n : Z) :
  options_get options "dagger" false = false ->
  0 < n ->
  qapply Sample.library (2 * Z.to_nat n + 2)
    (Mul [Pow (Operator a) (Integer n); Ket k]) options
  = Val (Mul [Integer 1; Ket k]).
Proof.
  intros Hd Hn.
  replace (2 * Z.to_nat n + 2)%nat with (2 * Z.to_nat (n - 1) + 4 + 0)%nat by lia.
  replace n with (Z.of_nat (S (Z.to_nat (n - 1)))) at 2 by lia.
  apply (positive_power_unrolls Sample.library a k options);
    try reflexivity; try exact Hd.
  intros z Hz. destruct z as [|[p|p|]|p]; try lia; reflexivity.
Qed.

Lemma qapply_positive_power_returns_witness :
  options_get (∅ : Options) "dagger" false = false
  /\ 0 < 5
  /\ qapply Sample.library 12
       (Mul [Pow (Operator "A") (Integer 5); Ket "k"]) ∅
     = Val (Mul [Integer 1; Ket "k"]).
Proof.
  split; [reflexivity|]. split; [reflexivity|].
  exact (qapply_positive_power_returns "A" "k" ∅ 5 eq_refl eq_refl).
Defined.

(** *** The sample library *)

Lemma qapply_Mul_commutative_guard_witness :
  let pre := [Operator "A"; Ket "k"] in
  let lhs := Operator "B" in
  let rhs := Integer 2 in
  (is_commutative Sample.library rhs && negb (is_Wavefunction rhs))
  || (is_commutative Sample.library lhs && negb (is_Wavefunction lhs)) = true
  /\ qapply_Mul Sample.library 1 (Mul (pre ++ [lhs; rhs])) ∅
     = Val (Mul (pre ++ [lhs; rhs]))
  /\ qapply Sample.library 2 (Mul (pre ++ [lhs; rhs])) ∅
     = Val (Mul (pre ++ [lhs; rhs])).
Proof.
  intros pre lhs rhs. split; [reflexivity|].
  destruct (qapply_Mul_commutative_guard Sample.library pre lhs rhs ∅ 0 eq_refl)
    as [H1 H2].
  split; [exact H1 | exact (H2 eq_refl eq_refl)].
Defined.

Lemma qapply_TensorProduct_witness :
  let e := TensorProduct [Mul [Operator "A"; Ket "k"]; Ket "j"] in
  let args := [Mul [Operator "A"; Ket "k"]; Ket "j"] in
  let rs := [Mul [Integer 1; Ket "k"]; Ket "j"] in
  e <> Integer 0
  /\ expand Sample.library e = TensorProduct args
  /\ Forall2 (fun t r => returns (fun fuel => qapply Sample.library fuel t ∅) r)
             args rs
  /\ returns (fun fuel => qapply Sample.library fuel e ∅)
             (TensorProduct rs).
Proof.
  intros e args rs.
  assert (H0 : e <> Integer 0) by discriminate.
  assert (Hrs : Forall2
            (fun t r => returns (fun fuel => qapply Sample.library fuel t ∅) r)
            args rs).
  { repeat constructor; exists 6%nat; vm_compute; reflexivity. }
  split; [exact H0|]. split; [reflexivity|]. split; [exact Hrs|].
  apply (proj2 (qapply_TensorProduct Sample.library e ∅ args
                  (TensorProduct rs) H0 eq_refl)).
  exists rs. split; [exact Hrs | reflexivity].
Defined.

Lemma qapply_Density_witness :
  let e := Density [(Mul [Operator "A"; Ket "k"], Rational 1 2);
                    (Ket "j", Rational 1 2)] in
  let args := [(Mul [Operator "A"; Ket "k"], Rational 1 2);
               (Ket "j", Rational 1 2)] in
  let rs := [Mul [Integer 1; Ket "k"]; Ket "j"] in
  e <> Integer 0
  /\ expand Sample.library e = Density args
  /\ Forall2 (fun s r => returns (fun fuel => qapply Sample.library fuel s ∅) r)
             (map fst args) rs
  /\ returns (fun fuel => qapply Sample.library fuel e ∅)
             (Density [(Mul [Integer 1; Ket "k"], Rational 1 2);
                       (Ket "j", Rational 1 2)]).
Proof.
  intros e args rs.
  assert (H0 : e <> Integer 0) by discriminate.
  assert (Hrs : Forall2
            (fun s r => returns (fun fuel => qapply Sample.library fuel s ∅) r)
            (map fst args) rs).
  { repeat constructor; exists 6%nat; vm_compute; reflexivity. }
  split; [exact H0|]. split; [reflexivity|]. split; [exact Hrs|].
  apply (proj2 (qapply_Density Sample.library e ∅ args _ H0 eq_refl)).
  exists rs. split; [exact Hrs | reflexivity].
Defined.

Lemma qapply_Pow_witness :
  let base := Mul [Operator "A"; Ket "k"] in
  let e := Pow base (Symbol "n") in
  e <> Integer 0
  /\ expand Sample.library e = Pow base (Symbol "n")
  /\ returns (fun fuel => qapply Sample.library fuel base ∅)
             (Mul [Integer 1; Ket "k"])
  /\ returns (fun fuel => qapply Sample.library fuel e ∅)
             (Pow (Mul [Integer 1; Ket "k"]) (Symbol "n")).
Proof.
  intros base e.
  assert (H0 : e <> Integer 0) by discriminate.
  assert (Hb : returns (fun fuel => qapply Sample.library fuel base ∅)
                       (Mul [Integer 1; Ket "k"])).
  { exists 6%nat. vm_compute. reflexivity. }
  split; [exact H0|]. split; [reflexivity|]. split; [exact Hb|].
  apply (proj2 (qapply_Pow Sample.library e ∅ base (Symbol "n") _ H0 eq_refl)).
  exists (Mul [Integer 1; Ket "k"]). split; [exact Hb | reflexivity].
Defined.

Lemma sample_apply_unimplemented (lhs rhs : Expr) (options : Options) (y : exn) :
  _apply_operator Sample.library lhs rhs options = Exc y ->
  unimplemented (@Exc (option Expr) y) = true.
Proof.
  destruct lhs, rhs; simpl; intros H; try discriminate;
    injection H as <-; reflexivity.
Defined.

Lemma qapply_raises_nothing_witness :
  let e := Mul [Commutator (Operator "A") (Operator "B"); Ket "k"] in
  (forall lhs rhs y, _apply_operator Sample.library lhs rhs ∅ = Exc y ->
                     unimplemented (@Exc (option Expr) y) = true)
  /\ (forall A B args, doit Sample.library (Commutator A B) = Add args ->
                       (2 <= length args)%nat)
  /\ (forall A B args, doit Sample.library (AntiCommutator A B) = Add args ->
                       (2 <= length args)%nat)
  /\ qapply Sample.library 3 e ∅ <> Exc IndexError
  /\ qapply_Mul Sample.library 3 e ∅ <> Exc IndexError.
Proof.
  intros e.
  assert (Ha : forall lhs rhs y,
             _apply_operator Sample.library lhs rhs ∅ = Exc y ->
             unimplemented (@Exc (option Expr) y) = true).
  { intros lhs rhs y. apply sample_apply_unimplemented. }
  assert (Hc : forall A B args,
             doit Sample.library (Commutator A B) = Add args ->
             (2 <= length args)%nat) by (intros A B args H; discriminate H).
  assert (Hac : forall A B args,
             doit Sample.library (AntiCommutator A B) = Add args ->
             (2 <= length args)%nat) by (intros A B args H; discriminate H).
  split; [exact Ha|]. split; [exact Hc|]. split; [exact Hac|].
  exact (qapply_raises_nothing Sample.library 3 e ∅ IndexError Ha Hc Hac).
Defined.

End QApplyExtra.
